(** * Weather API: cache keys, Redis-backed cache, rate limiter, fetcher

    A shallow embedding of
      - [packages/api/src/lib/redis.ts]            (getRedisClient, getCached, setCached, delCached)
      - [packages/api/src/lib/weather/weather.ts]  (fetchWeather)
      - [packages/api/src/routers/weather.ts]      (getCacheKey, checkRateLimit, getCurrent, clearCache)

    Strings are byte strings; [toLowerCase] and [trim] are modelled on the
    ASCII range.  Asynchronous code is modelled in a state-and-exception
    monad over an explicit world: the Redis keyspace with a clock, a fault
    schedule for the Redis connection, the upstream provider, the queue of
    detached (un-awaited) calls and the log of I/O events. *)

From Stdlib Require Import ZArith Lia Ascii String DecimalString DecimalZ.
From stdpp Require Import base option list strings gmap.

Local Open Scope Z_scope.

(** ** String primitives used by [getCacheKey] *)

Module Str.

Definition code (c : ascii) : nat := nat_of_ascii c.

(** ASCII upper-case letters, [A]..[Z]. *)
Definition is_upper (c : ascii) : bool :=
  (65 <=? code c)%nat && (code c <=? 90)%nat.

Definition shift_case (c : ascii) : ascii := ascii_of_nat (code c + 32).

Definition lower_char (c : ascii) : ascii :=
  if is_upper c then shift_case c else c.

(** [String.prototype.toLowerCase]. *)
Fixpoint toLowerCase (s : string) : string :=
  match s with
  | EmptyString => EmptyString
  | String c r => String (lower_char c) (toLowerCase r)
  end.

(** White space removed by [String.prototype.trim]: TAB, LF, VT, FF, CR, SP. *)
Definition is_ws (c : ascii) : bool :=
  match code c with
  | 9%nat | 10%nat | 11%nat | 12%nat | 13%nat | 32%nat => true
  | _ => false
  end.

Fixpoint trimStart (s : string) : string :=
  match s with
  | EmptyString => EmptyString
  | String c r => if is_ws c then trimStart r else s
  end.

Fixpoint trimEnd (s : string) : string :=
  match s with
  | EmptyString => EmptyString
  | String c r =>
      match trimEnd r with
      | EmptyString => if is_ws c then EmptyString else String c EmptyString
      | t => String c t
      end
  end.

(** [String.prototype.trim]. *)
Definition trim (s : string) : string := trimEnd (trimStart s).

Fixpoint all_ws (s : string) : bool :=
  match s with
  | EmptyString => true
  | String c r => is_ws c && all_ws r
  end.





(** Two characters that are equal or are the two cases of one letter. *)
Definition same_letter (a b : ascii) : bool :=
  Ascii.eqb a b
  || (is_upper a && Ascii.eqb b (shift_case a))
  || (is_upper b && Ascii.eqb a (shift_case b)).

(** Strings that differ only in letter case. *)
Inductive same_ignoring_case : string -> string -> Prop :=
| sic_nil : same_ignoring_case EmptyString EmptyString
| sic_cons a b s t :
    same_letter a b = true ->
    same_ignoring_case s t ->
    same_ignoring_case (String a s) (String b t).

(** Strings that differ only in letter case or in leading and trailing
    white space. *)
Inductive same_location : string -> string -> Prop :=
| same_loc l1 c1 r1 l2 c2 r2 :
    all_ws l1 = true -> all_ws r1 = true ->
    all_ws l2 = true -> all_ws r2 = true ->
    same_ignoring_case c1 c2 ->
    same_location (l1 +:+ c1 +:+ r1) (l2 +:+ c2 +:+ r2).

End Str.

(** ** routers/weather.ts: [getCacheKey] *)

Definition getCacheKey (location : string) : string :=
  "weather:" +:+ Str.trim (Str.toLowerCase location).

(** ** Exceptions *)

(** The tRPC error codes the routers use, with the HTTP status tRPC gives
    each of them. *)
Inductive trpc_code := BAD_REQUEST | INTERNAL_SERVER_ERROR | TOO_MANY_REQUESTS.

Definition httpStatus (c : trpc_code) : Z :=
  match c with
  | BAD_REQUEST => 400
  | INTERNAL_SERVER_ERROR => 500
  | TOO_MANY_REQUESTS => 429
  end.

(** Values thrown by the code and by its libraries.  [AxiosError status]
    carries [error.response?.status]: [None] when no response arrived
    (timeout, network failure). *)
#[warnings="-register-all"]
Inductive exn :=
| TRPCError (code : trpc_code) (message : string) (cause : option exn)
| ZodError
| RedisError (message : string)
| SyntaxError
| AxiosError (status : option Z).

(** The code of a tRPC error, if the value is one. *)
Definition code_of (e : exn) : option trpc_code :=
  match e with TRPCError c _ _ => Some c | _ => None end.

(** [error instanceof TRPCError] *)
Definition instanceof_TRPCError (e : exn) : bool :=
  match e with TRPCError _ _ _ => true | _ => false end.

Inductive outcome (A : Type) :=
| Return (a : A)
| Throw (e : exn).
Arguments Return {A} a.
Arguments Throw {A} e.

(** ** The Redis keyspace *)

(** A key holds a string and, when it is volatile, the time it expires at. *)
Record entry := Entry { e_val : string; e_exp : option Z }.

Inductive command :=
| GET (key : string)
| SETEX (key : string) (seconds : Z) (value : string)
| DEL (key : string)
| INCR (key : string)
| EXPIRE (key : string) (seconds : Z).

Inductive reply :=
| RNil
| RBulk (s : string)
| RInt (n : Z)
| ROk
| RErr (message : string).

Module Redis.

Definition live (t : Z) (e : entry) : bool :=
  match e_exp e with
  | None => true
  | Some x => t <? x
  end.

(** The entry a command sees at [key] at time [t]: expired keys are gone. *)
Definition lookup (t : Z) (d : gmap string entry) (key : string) : option entry :=
  match d !! key with
  | Some e => if live t e then Some e else None
  | None => None
  end.

Definition INT64_MAX : Z := 9223372036854775807.
Definition INT64_MIN : Z := -9223372036854775808.

Definition print_int (n : Z) : string := NilZero.string_of_int (Z.to_int n).

(** Redis reads a value as an integer only in its canonical decimal form
    and in the signed 64-bit range. *)
Definition parse_int (s : string) : option Z :=
  match NilZero.int_of_string s with
  | Some d =>
      let n := Z.of_int d in
      if String.eqb (print_int n) s && (INT64_MIN <=? n) && (n <=? INT64_MAX)
      then Some n else None
  | None => None
  end.

(** The key a command works on. *)
Definition key_of (c : command) : string :=
  match c with
  | GET k | SETEX k _ _ | DEL k | INCR k | EXPIRE k _ => k
  end.

(** The effect of one command on the keyspace at time [t], and its reply. *)
Definition exec (c : command) (t : Z) (d : gmap string entry)
  : reply * gmap string entry :=
  match c with
  | GET key =>
      match lookup t d key with
      | Some e => (RBulk (e_val e), d)
      | None => (RNil, d)
      end
  | SETEX key seconds value =>
      if seconds <=? 0 then (RErr "ERR invalid expire time in 'setex' command", d)
      else (ROk, <[key := Entry value (Some (t + seconds))]> d)
  | DEL key =>
      match lookup t d key with
      | Some _ => (RInt 1, delete key d)
      | None => (RInt 0, delete key d)
      end
  | INCR key =>
      match lookup t d key with
      | None => (RInt 1, <[key := Entry (print_int 1) None]> d)
      | Some e =>
          match parse_int (e_val e) with
          | None => (RErr "ERR value is not an integer or out of range", d)
          | Some n =>
              if n <? INT64_MAX
              then (RInt (n + 1), <[key := Entry (print_int (n + 1)) (e_exp e)]> d)
              else (RErr "ERR increment or decrement would overflow", d)
          end
      end
  | EXPIRE key seconds =>
      match lookup t d key with
      | None => (RInt 0, d)
      | Some e =>
          if seconds <=? 0 then (RInt 1, delete key d)
          else (RInt 1, <[key := Entry (e_val e) (Some (t + seconds))]> d)
      end
  end.

End Redis.

(** What happens to the next command sent over the connection: it is
    served; it never reaches the server; or it is applied by the server and
    its reply is lost. *)
Inductive fault := Healthy | Refused | ReplyLost.

(** ** The world the handlers run in *)

Inductive event :=
| RedisCmd (c : command)
| HttpGet (location : string)
| ConsoleError (label : string).

Definition is_HttpGet (e : event) : bool :=
  match e with HttpGet _ => true | _ => false end.

Definition is_EXPIRE (key : string) (e : event) : bool :=
  match e with
  | RedisCmd (EXPIRE k _) => String.eqb k key
  | _ => false
  end.

(** JavaScript values of static type [T | null] as the code tests them:
    [null], another falsy value, or a (truthy) [T]. *)
Inductive nullable (T : Type) :=
| Null
| Falsy
| Obj (v : T).
Arguments Null {T}.
Arguments Falsy {T}.
Arguments Obj {T} v.

Section WeatherApi.

(** [lib/weather/types.ts] is not part of the sources: the payload type
    and JavaScript's JSON functions are parameters.  [JSON_parse s] is
    [None] when [JSON.parse] throws a [SyntaxError]. *)
Variable WeatherData : Type.
Variable JSON_stringify : WeatherData -> string.
Variable JSON_parse : string -> option (nullable WeatherData).

(** The outcome of the HTTP exchange with the upstream provider. *)
Inductive http_outcome :=
| Response (status : Z) (data : WeatherData)
| Timeout
| NetworkError.

(** A call whose promise the caller dropped: [setCached(key, value, ttl)]. *)
Inductive detached :=
| SetCachedCall (key : string) (value : WeatherData) (ttlSeconds : Z).

Record world := World {
  now : Z;                            (* the Redis server's clock, seconds *)
  db : gmap string entry;             (* the Redis keyspace *)
  faults : list fault;                (* fate of the next commands, in order *)
  steady : fault;                     (* fate of the commands after those *)
  upstream : string -> http_outcome;  (* the provider's answer per location *)
  redisClient : bool;                 (* [redisClient !== null] *)
  pending : list detached;            (* calls not awaited, still to settle *)
  log : list event                    (* I/O performed so far, oldest first *)
}.

Definition set_now (t : Z) (w : world) : world :=
  World t (db w) (faults w) (steady w) (upstream w) (redisClient w) (pending w) (log w).
Definition set_db (d : gmap string entry) (w : world) : world :=
  World (now w) d (faults w) (steady w) (upstream w) (redisClient w) (pending w) (log w).
Definition set_faults (fs : list fault) (w : world) : world :=
  World (now w) (db w) fs (steady w) (upstream w) (redisClient w) (pending w) (log w).
Definition set_redisClient (b : bool) (w : world) : world :=
  World (now w) (db w) (faults w) (steady w) (upstream w) b (pending w) (log w).
Definition set_pending (p : list detached) (w : world) : world :=
  World (now w) (db w) (faults w) (steady w) (upstream w) (redisClient w) p (log w).
Definition emit (e : event) (w : world) : world :=
  World (now w) (db w) (faults w) (steady w) (upstream w) (redisClient w) (pending w)
        (log w ++ [e]).

(** Time passing between two requests. *)
Definition tick (d : Z) (w : world) : world := set_now (now w + d) w.

(** ** The monad of asynchronous code: state and exceptions *)

Definition M (A : Type) : Type := world -> outcome A * world.

Definition ret {A} (a : A) : M A := fun w => (Return a, w).

Definition throw {A} (e : exn) : M A := fun w => (Throw e, w).

Definition bind {A B} (m : M A) (k : A -> M B) : M B :=
  fun w =>
    match m w with
    | (Return a, w') => k a w'
    | (Throw e, w') => (Throw e, w')
    end.

(** [try { m } catch (error) { h error }] *)
Definition try_catch {A} (m : M A) (h : exn -> M A) : M A :=
  fun w =>
    match m w with
    | (Return a, w') => (Return a, w')
    | (Throw e, w') => h e w'
    end.

Notation "x <- m ;; k" := (bind m (fun x => k))
  (at level 100, m at next level, right associativity).
Notation "m ;;; k" := (bind m (fun _ => k))
  (at level 100, right associativity).

(** [console.error(label, error)] *)
Definition console_error (label : string) : M unit :=
  fun w => (Return tt, emit (ConsoleError label) w).

(** The world after [console.error(label, error)]. *)
Definition complain (label : string) (w : world) : world :=
  emit (ConsoleError label) w.

(** ** ioredis: one command over the shared connection *)

Definition next_fault (w : world) : fault :=
  match faults w with
  | [] => steady w
  | f :: _ => f
  end.

Definition use_fault (w : world) : world := set_faults (tail (faults w)) w.

Definition connection_lost : exn :=
  RedisError "Reached the max retries per request limit".

(** The world once a command has been sent, and once the server has
    applied it. *)
Definition sent (c : command) (w : world) : world :=
  use_fault (emit (RedisCmd c) w).

Definition served (c : command) (w : world) : world :=
  set_db (snd (Redis.exec c (now w) (db w))) (sent c w).

Definition call (c : command) : M reply :=
  fun w =>
    match next_fault w with
    | Refused => (Throw connection_lost, sent c w)
    | ReplyLost => (Throw connection_lost, served c w)
    | Healthy =>
        (match fst (Redis.exec c (now w) (db w)) with
         | RErr message => Throw (RedisError message)
         | rep => Return rep
         end, served c w)
    end.

(** [client.get(key)]: the bulk string, or [null]. *)
Definition client_get (key : string) : M (option string) :=
  r <- call (GET key) ;;
  ret (match r with RBulk s => Some s | _ => None end).

Definition client_setex (key : string) (seconds : Z) (value : string) : M unit :=
  call (SETEX key seconds value) ;;; ret tt.

Definition client_del (key : string) : M unit :=
  call (DEL key) ;;; ret tt.

Definition client_incr (key : string) : M Z :=
  r <- call (INCR key) ;;
  ret (match r with RInt n => n | _ => 0 end).

Definition client_expire (key : string) (seconds : Z) : M unit :=
  call (EXPIRE key seconds) ;;; ret tt.

(** ** lib/redis.ts *)

(** The lazily created singleton.  The constructor does not throw: a
    failing connection raises ["error"] events, which the listener logs,
    and fails the commands sent over it. *)
Definition getRedisClient : M unit :=
  fun w =>
    if redisClient w then (Return tt, w)
    else (Return tt, set_redisClient true w).

Definition is_empty (s : string) : bool :=
  match s with EmptyString => true | _ => false end.

Definition getCached (key : string) : M (nullable WeatherData) :=
  try_catch
    (getRedisClient ;;;
     data <- client_get key ;;
     match data with
     | Some s =>
         if is_empty s then ret Null
         else match JSON_parse s with
              | Some v => ret v
              | None => throw SyntaxError
              end
     | None => ret Null
     end)
    (fun error =>
       console_error "Redis GET error:" ;;;
       ret Null).

Definition setCached (key : string) (value : WeatherData) (ttlSeconds : Z) : M unit :=
  try_catch
    (getRedisClient ;;;
     client_setex key ttlSeconds (JSON_stringify value))
    (fun error => console_error "Redis SET error:").

Definition delCached (key : string) : M unit :=
  try_catch
    (getRedisClient ;;;
     client_del key)
    (fun error => console_error "Redis DEL error:").

(** ** lib/weather/weather.ts *)

(** [axios.get(url)]: resolves on a 2xx status (the default
    [validateStatus]) and rejects with an [AxiosError] otherwise.  The URL
    is a function of the location (base URL, encoded location, fixed query
    parameters); building it is not modelled and the event records the
    location. *)
Definition validateStatus (status : Z) : bool :=
  (200 <=? status) && (status <? 300).

Definition axios_get (location : string) : M WeatherData :=
  fun w =>
    let w1 := emit (HttpGet location) w in
    match upstream w location with
    | Response status data =>
        if validateStatus status then (Return data, w1)
        else (Throw (AxiosError (Some status)), w1)
    | Timeout => (Throw (AxiosError None), w1)
    | NetworkError => (Throw (AxiosError None), w1)
    end.

Definition invalid_location : exn :=
  TRPCError BAD_REQUEST "Invalid location provided" None.

Definition authentication_failed : exn :=
  TRPCError INTERNAL_SERVER_ERROR "Weather API authentication failed" None.

Definition request_failed (error : exn) : exn :=
  TRPCError INTERNAL_SERVER_ERROR "Weather API request failed" (Some error).

Definition fetchWeather (location : string) : M WeatherData :=
  try_catch
    (axios_get location)
    (fun error =>
       match error with
       | AxiosError status =>
           if decide (status = Some 400) then throw invalid_location
           else if decide (status = Some 401) then throw authentication_failed
           else throw (request_failed error)
       | _ => throw (request_failed error)
       end).

(** ** routers/weather.ts *)

(** [ms("12h") / 1000] *)
Definition CACHE_TTL_SECONDS : Z := (12 * 60 * 60 * 1000) / 1000.

Definition limit : Z := 100.

(** [ms("1h") / 1000] *)
Definition window : Z := (60 * 60 * 1000) / 1000.

Definition rateLimitKey (identifier : string) : string :=
  "ratelimit:weather:" +:+ identifier.

Definition rate_limit_exceeded : exn :=
  TRPCError TOO_MANY_REQUESTS "Rate limit exceeded. Try again later." None.

Definition checkRateLimit (identifier : string) : M unit :=
  getRedisClient ;;;
  let key := rateLimitKey identifier in
  try_catch
    (current <- client_incr key ;;
     (if current =? 1 then client_expire key window else ret tt) ;;;
     if current >? limit then throw rate_limit_exceeded else ret tt)
    (fun error =>
       if instanceof_TRPCError error then throw error
       else console_error "Rate limit check failed:").

(** The object [{ ...data, fromCache }]. *)
Record current_weather := CurrentWeather {
  data : WeatherData;
  fromCache : bool
}.

(** [z.object({ location: z.string().min(1) })]: a failed input schema is
    a [BAD_REQUEST] raised before the resolver runs. *)
Definition invalid_input : exn :=
  TRPCError BAD_REQUEST "String must contain at least 1 character(s)" (Some ZodError).

Definition input {A} (location : string) (resolver : M A) : M A :=
  if (String.length location <? 1)%nat then throw invalid_input else resolver.

(** [ctx.req?.header("x-forwarded-for") || "default"] *)
Definition identifierOf (forwardedFor : option string) : string :=
  match forwardedFor with
  | Some s => if is_empty s then "default" else s
  | None => "default"
  end.

(** A call that is not awaited: it settles after the resolver has
    returned. *)
Definition detach (c : detached) : M unit :=
  fun w => (Return tt, set_pending (pending w ++ [c]) w).

Definition getCurrent (forwardedFor : option string) (location : string)
  : M current_weather :=
  input location
    (let identifier := identifierOf forwardedFor in
     checkRateLimit identifier ;;;
     let cacheKey := getCacheKey location in
     cached <- getCached cacheKey ;;
     match cached with
     | Obj c => ret (CurrentWeather c true)
     | _ =>
         weatherData <- fetchWeather location ;;
         detach (SetCachedCall cacheKey weatherData CACHE_TTL_SECONDS) ;;;
         ret (CurrentWeather weatherData false)
     end).

Definition failed_to_clear (error : exn) : exn :=
  TRPCError INTERNAL_SERVER_ERROR "Failed to clear cache" (Some error).

(** Returns the [success] field of the reply. *)
Definition clearCache (location : string) : M bool :=
  input location
    (try_catch
       (let cacheKey := getCacheKey location in
        delCached cacheKey ;;;
        ret true)
       (fun error => throw (failed_to_clear error))).

(** Settling the calls that were not awaited.  A promise that rejects
    with nobody awaiting it is an unhandled rejection: [Throw]. *)
Definition run_detached (c : detached) : M unit :=
  match c with
  | SetCachedCall key value ttlSeconds => setCached key value ttlSeconds
  end.

Fixpoint run_all (cs : list detached) : M unit :=
  match cs with
  | [] => ret tt
  | c :: rest => run_detached c ;;; run_all rest
  end.

Definition settle : M unit :=
  fun w => run_all (pending w) (set_pending [] w).

End WeatherApi.

Arguments World {WeatherData}.
Arguments Response {WeatherData}.
Arguments Timeout {WeatherData}.
Arguments NetworkError {WeatherData}.
Arguments SetCachedCall {WeatherData}.
Arguments CurrentWeather {WeatherData}.
Arguments now {WeatherData}.
Arguments db {WeatherData}.
Arguments faults {WeatherData}.
Arguments steady {WeatherData}.
Arguments upstream {WeatherData}.
Arguments redisClient {WeatherData}.
Arguments pending {WeatherData}.
Arguments log {WeatherData}.
Arguments data {WeatherData}.
Arguments fromCache {WeatherData}.
Arguments tick {WeatherData}.
Arguments next_fault {WeatherData}.
Arguments use_fault {WeatherData}.
Arguments sent {WeatherData}.
Arguments served {WeatherData}.
Arguments emit {WeatherData}.
Arguments complain {WeatherData}.
Arguments call {WeatherData}.
Arguments console_error {WeatherData}.
Arguments M WeatherData A : clear implicits.
Arguments checkRateLimit {WeatherData}.
Arguments fetchWeather {WeatherData}.
Arguments delCached {WeatherData}.
Arguments clearCache {WeatherData}.
Arguments getRedisClient {WeatherData}.

(** ** Successive requests of one caller

    [requests identifier gaps w] runs one [checkRateLimit] per element of
    [gaps], letting that much time pass before each, and returns what each
    call returned together with the world it left. *)

Fixpoint requests {WeatherData} (identifier : string) (gaps : list Z)
    (w : world WeatherData) : list (outcome unit * world WeatherData) :=
  match gaps with
  | [] => []
  | g :: gs =>
      let r := checkRateLimit identifier (tick g w) in
      r :: requests identifier gs (snd r)
  end.

Fixpoint total (gaps : list Z) : Z :=
  match gaps with
  | [] => 0
  | g :: gs => g + total gs
  end.

(** What the [k]-th request of a window must get. *)
Definition verdict (k : Z) : outcome unit :=
  if k <=? limit then Return tt else Throw rate_limit_exceeded.

(** A connection on which every command is served. *)
Definition healthy {WeatherData} (w : world WeatherData) : Prop :=
  faults w = [] /\ steady w = Healthy.

(** A connection on which no command is served. *)
Definition outage {WeatherData} (w : world WeatherData) : Prop :=
  Forall (fun f => f <> Healthy) (faults w) /\ steady w <> Healthy.

(** The counter at [key] holds [k] and expires as [exp] says. *)
Definition counter_at {WeatherData} (key : string) (k : Z) (exp : option Z)
    (w : world WeatherData) : Prop :=
  db w !! key = Some (Entry (Redis.print_int k) exp).

(** The increment of the counter at [key] fails: the command is not
    served, or Redis answers it with an error. *)
Definition incr_fails {WeatherData} (key : string) (w : world WeatherData) : Prop :=
  next_fault w <> Healthy \/
  exists message, fst (Redis.exec (INCR key) (now w) (db w)) = RErr message.

(** Reading the cache at [key] fails: the command is not served, or the
    stored text does not deserialize. *)
Definition read_fails {WeatherData} (JSON_parse : string -> option (nullable WeatherData))
    (key : string) (w : world WeatherData) : Prop :=
  next_fault w <> Healthy \/
  exists e, Redis.lookup (now w) (db w) key = Some e /\
            is_empty (e_val e) = false /\ JSON_parse (e_val e) = None.

(** The I/O a cache hit may perform: the counter's [INCR] and [EXPIRE],
    the [GET] of the entry, and messages on the console. *)
Definition hit_event (rateKey cacheKey : string) (ev : event) : Prop :=
  ev = RedisCmd (INCR rateKey) \/
  ev = RedisCmd (EXPIRE rateKey window) \/
  ev = RedisCmd (GET cacheKey) \/
  exists label, ev = ConsoleError label.

(** The cache-hit rule without any condition on the caller: whenever the
    key of a valid location holds a live entry whose text is a value,
    [getCurrent] answers with that value from the cache. *)
Definition entry_is_always_served {WeatherData}
    (JSON_parse : string -> option (nullable WeatherData)) : Prop :=
  forall forwardedFor location (w : world WeatherData) e c,
    location <> EmptyString ->
    Redis.lookup (now w) (db w) (getCacheKey location) = Some e ->
    is_empty (e_val e) = false ->
    JSON_parse (e_val e) = Some (Obj c) ->
    fst (getCurrent WeatherData JSON_parse forwardedFor location w)
      = Return (CurrentWeather c true).

(** ** A concrete payload, for running the model

    The payload is its own JSON text.  The parser knows the texts that
    matter to the code: [null], the other falsy literals, and objects. *)

Module Demo.

Definition WeatherData : Type := string.

Definition JSON_stringify (v : WeatherData) : string := v.

Definition JSON_parse (s : string) : option (nullable WeatherData) :=
  if String.eqb s "null" then Some Null
  else if String.eqb s "0" || String.eqb s "false" then Some Falsy
  else match s with
       | String "{" _ => Some (Obj s)
       | _ => None
       end.

Definition paris : WeatherData := "{resolvedAddress:Paris,temp:21}".

Definition provider (location : string) : http_outcome WeatherData :=
  if String.eqb location "Paris" then Response 200 paris
  else if String.eqb location "Atlantis" then Response 400 EmptyString
  else if String.eqb location "Locked" then Response 401 EmptyString
  else Timeout.

(** An empty keyspace at time 0 behind a connection with the given
    fault schedule. *)
Definition boot (fs : list fault) (rest : fault) : world WeatherData :=
  World 0 ∅ fs rest provider false [] [].

(** A keyspace behind the given fault schedule, client already created. *)
Definition running (d : gmap string entry) (fs : list fault) (rest : fault)
  : world WeatherData :=
  World 0 d fs rest provider true [] [].

(** Paris is cached for twelve hours. *)
Definition paris_cached : gmap string entry :=
  {[ "weather:paris" := Entry paris (Some 43200) ]}.

(** Paris is cached and the caller at 10.0.0.1 has used up its hour. *)
Definition paris_cached_caller_spent : gmap string entry :=
  <[ "ratelimit:weather:10.0.0.1" := Entry "100" (Some 3600) ]> paris_cached.

Definition getCurrent := getCurrent WeatherData JSON_parse.
Definition getCached := getCached WeatherData JSON_parse.
Definition setCached := setCached WeatherData JSON_stringify.
Definition settle := settle WeatherData JSON_stringify.

End Demo.

(** ** Observations on the log *)

Definition is_INCR (e : event) : bool :=
  match e with RedisCmd (INCR _) => true | _ => false end.

(** The events that belong to the rate limiter's traffic for [key] and to
    the console. *)
Definition limiter_event (key : string) (ev : event) : Prop :=
  ev = RedisCmd (INCR key) \/
  ev = RedisCmd (EXPIRE key window) \/
  exists label, ev = ConsoleError label.

Definition console_event (ev : event) : Prop :=
  exists label, ev = ConsoleError label.

(** ** Facts about the string primitives *)

Module StrFacts.
Import Str.

#[local] Arguments String.append !s1 s2 : simpl nomatch.

Lemma code_shift c : is_upper c = true -> code (shift_case c) = (code c + 32)%nat.
Proof.
  unfold is_upper, shift_case, code. intros H.
  apply andb_prop in H as [H1 H2].
  apply Nat.leb_le in H1, H2.
  apply nat_ascii_embedding. lia.
Qed.

Lemma shift_not_upper c : is_upper c = true -> is_upper (shift_case c) = false.
Proof.
  intros H. pose proof (code_shift c H) as E.
  unfold is_upper in *. rewrite E.
  apply andb_prop in H as [H1 H2]. apply Nat.leb_le in H1, H2.
  apply andb_false_iff. right. apply Nat.leb_gt. lia.
Qed.


Lemma ws_not_upper c : is_ws c = true -> is_upper c = false.
Proof.
  unfold is_ws, is_upper. intros H.
  destruct (code c) as [|n] eqn:E; [done|].
  do 33 (destruct n as [|n]; try done).
Qed.

Lemma lower_char_ws c : is_ws c = true -> lower_char c = c.
Proof. intros H. unfold lower_char. by rewrite ws_not_upper. Qed.

Lemma is_ws_lower_char c : is_ws (lower_char c) = is_ws c.
Proof.
  unfold lower_char. destruct (is_upper c) eqn:E; [|done].
  pose proof (code_shift c E) as Hs.
  assert (is_ws c = false) as ->.
  { destruct (is_ws c) eqn:W; [|done]. apply ws_not_upper in W. congruence. }
  unfold is_upper in E. apply andb_prop in E as [H1 H2].
  apply Nat.leb_le in H1, H2.
  unfold is_ws. rewrite Hs.
  destruct (code c) as [|n]; [lia|].
  do 64 (destruct n as [|n]; [lia|]). done.
Qed.

Lemma same_letter_lower a b : same_letter a b = true -> lower_char a = lower_char b.
Proof.
  unfold same_letter. intros H.
  apply orb_prop in H as [H|H]; [apply orb_prop in H as [H|H]|].
  - apply Ascii.eqb_eq in H. by subst.
  - apply andb_prop in H as [U E]. apply Ascii.eqb_eq in E. subst b.
    unfold lower_char at 1. rewrite U.
    unfold lower_char. by rewrite shift_not_upper.
  - apply andb_prop in H as [U E]. apply Ascii.eqb_eq in E. subst a.
    unfold lower_char at 2. rewrite U.
    unfold lower_char. by rewrite shift_not_upper.
Qed.


Lemma toLowerCase_app s t : toLowerCase (s +:+ t) = toLowerCase s +:+ toLowerCase t.
Proof. induction s as [|c s IH]; simpl; [done | by rewrite IH]. Qed.

Lemma toLowerCase_same s t : same_ignoring_case s t -> toLowerCase s = toLowerCase t.
Proof.
  induction 1 as [|a b s t Hab _ IH]; simpl; [done|].
  by rewrite (same_letter_lower a b Hab), IH.
Qed.


Lemma toLowerCase_ws s : all_ws s = true -> toLowerCase s = s.
Proof.
  induction s as [|c s IH]; simpl; [done|].
  intros H. apply andb_prop in H as [H1 H2].
  by rewrite lower_char_ws, IH.
Qed.


Lemma all_ws_toLowerCase s : all_ws (toLowerCase s) = all_ws s.
Proof.
  induction s as [|c s IH]; simpl; [done|]. by rewrite is_ws_lower_char, IH.
Qed.


Lemma app_assoc s t u : (s +:+ t) +:+ u = s +:+ t +:+ u.
Proof. induction s as [|c s IH]; simpl; [done | by f_equal]. Qed.

Lemma trimStart_ws_app l s : all_ws l = true -> trimStart (l +:+ s) = trimStart s.
Proof.
  induction l as [|c l IH]; simpl; [done|].
  intros H. apply andb_prop in H as [H1 H2]. rewrite H1. auto.
Qed.

Lemma trimStart_all_ws s : all_ws s = true -> trimStart s = EmptyString.
Proof.
  induction s as [|c s IH]; simpl; [done|].
  intros H. apply andb_prop in H as [H1 H2]. rewrite H1. auto.
Qed.

Lemma trimEnd_all_ws s : all_ws s = true -> trimEnd s = EmptyString.
Proof.
  induction s as [|c s IH]; simpl; [done|].
  intros H. apply andb_prop in H as [H1 H2]. by rewrite IH, H1.
Qed.

Lemma trimEnd_app_ws s r : all_ws r = true -> trimEnd (s +:+ r) = trimEnd s.
Proof.
  intros H. induction s as [|c s IH]; simpl.
  - by apply trimEnd_all_ws.
  - by rewrite IH.
Qed.

(** Dropping leading white space commutes with appending a blank suffix,
    up to what [trimEnd] removes afterwards. *)
Lemma trim_app_ws_r s r : all_ws r = true -> trim (s +:+ r) = trim s.
Proof.
  intros H. unfold trim. induction s as [|c s IH]; simpl.
  - by rewrite trimStart_all_ws.
  - destruct (is_ws c); [done|].
    change (String c (s +:+ r)) with (String c s +:+ r).
    by apply trimEnd_app_ws.
Qed.

Lemma trim_padded l s r :
  all_ws l = true -> all_ws r = true -> trim (l +:+ s +:+ r) = trim s.
Proof.
  intros Hl Hr. unfold trim at 1. rewrite trimStart_ws_app by done.
  by apply trim_app_ws_r.
Qed.








End StrFacts.

(** ** Facts about the Redis model *)

Module RedisFacts.
Import Redis.

Lemma to_int_not_nil n : Z.to_int n <> Decimal.Pos Decimal.Nil /\ Z.to_int n <> Decimal.Neg Decimal.Nil.
Proof.
  destruct n as [|p|p]; simpl; split; try discriminate;
    intros [= H]; by apply DecimalPos.Unsigned.to_uint_nonnil in H.
Qed.

(** Printing then reading a 64-bit integer gives it back. *)
Lemma parse_print n :
  INT64_MIN <= n <= INT64_MAX -> parse_int (print_int n) = Some n.
Proof.
  intros [Hlo Hhi]. unfold parse_int, print_int.
  destruct (to_int_not_nil n) as [H1 H2].
  rewrite NilZero.isi by done.
  rewrite DecimalZ.of_to, String.eqb_refl. simpl.
  destruct (Z.leb_spec INT64_MIN n); [|lia].
  destruct (Z.leb_spec n INT64_MAX); [done | lia].
Qed.

Lemma parse_canonical s n : parse_int s = Some n -> s = print_int n.
Proof.
  unfold parse_int. destruct (NilZero.int_of_string s) as [d|]; [|done].
  destruct (String.eqb_spec (print_int (Z.of_int d)) s) as [E|]; simpl; [|done].
  destruct (_ && _); [|done]. intros [= <-]. done.
Qed.

(** A command touches no key but its own. *)
Lemma exec_frame c t d k :
  k <> key_of c -> snd (exec c t d) !! k = d !! k.
Proof.
  intros Hk. destruct c as [key|key s v|key|key|key s]; simpl in *.
  - by destruct (lookup t d key).
  - destruct (s <=? 0); simpl; [done | by rewrite lookup_insert_ne].
  - destruct (lookup t d key); simpl; by rewrite lookup_delete_ne.
  - destruct (lookup t d key) as [e|]; simpl; [|by rewrite lookup_insert_ne].
    destruct (parse_int (e_val e)) as [n|]; [|done].
    destruct (n <? INT64_MAX); simpl; [by rewrite lookup_insert_ne | done].
  - destruct (lookup t d key) as [e|]; [|done].
    destruct (s <=? 0); simpl; [by rewrite lookup_delete_ne | by rewrite lookup_insert_ne].
Qed.

(** [GET] is a pure read. *)
Lemma exec_GET_db key t d : snd (exec (GET key) t d) = d.
Proof. simpl. by destruct (lookup t d key). Qed.

Lemma lookup_Some t d key e :
  d !! key = Some e -> live t e = true -> lookup t d key = Some e.
Proof. intros H L. unfold lookup. by rewrite H, L. Qed.

Lemma lookup_frame t d d' key :
  d' !! key = d !! key -> lookup t d' key = lookup t d key.
Proof. intros H. unfold lookup. by rewrite H. Qed.

End RedisFacts.

(** The two key spaces are disjoint. *)
Lemma cache_key_not_rate_key location identifier :
  getCacheKey location <> rateLimitKey identifier.
Proof. unfold getCacheKey, rateLimitKey. discriminate. Qed.

(** ** Cache keys *)






(** ** Symbolic execution of the handlers *)

#[local] Arguments Redis.exec : simpl never.

Lemma exec_EXPIRE_reply key s t d :
  exists n, fst (Redis.exec (EXPIRE key s) t d) = RInt n.
Proof.
  unfold Redis.exec. destruct (Redis.lookup t d key); [|by exists 0].
  destruct (s <=? 0); by exists 1.
Qed.

Lemma exec_DEL_reply key t d :
  exists n, fst (Redis.exec (DEL key) t d) = RInt n.
Proof.
  unfold Redis.exec. destruct (Redis.lookup t d key); [by exists 1 | by exists 0].
Qed.

Lemma exec_INCR_fresh t d key :
  Redis.lookup t d key = None ->
  Redis.exec (INCR key) t d = (RInt 1, <[key := Entry (Redis.print_int 1) None]> d).
Proof. intros H. unfold Redis.exec. by rewrite H. Qed.

Lemma exec_INCR_counter t d key k exp :
  d !! key = Some (Entry (Redis.print_int k) exp) ->
  Redis.live t (Entry (Redis.print_int k) exp) = true ->
  Redis.INT64_MIN <= k < Redis.INT64_MAX ->
  Redis.exec (INCR key) t d =
    (RInt (k + 1), <[key := Entry (Redis.print_int (k + 1)) exp]> d).
Proof.
  intros H L [Hlo Hhi]. unfold Redis.exec.
  rewrite (RedisFacts.lookup_Some _ _ _ _ H L). simpl.
  rewrite RedisFacts.parse_print by lia.
  destruct (Z.ltb_spec k Redis.INT64_MAX); [done | lia].
Qed.

Lemma exec_EXPIRE_live t d key e s :
  Redis.lookup t d key = Some e -> 0 < s ->
  Redis.exec (EXPIRE key s) t d =
    (RInt 1, <[key := Entry (e_val e) (Some (t + s))]> d).
Proof.
  intros H Hs. unfold Redis.exec. rewrite H.
  destruct (Z.leb_spec s 0); [lia | done].
Qed.

Section HandlerFacts.
Context {WeatherData : Type}.
Variable JSON_stringify : WeatherData -> string.
Variable JSON_parse : string -> option (nullable WeatherData).
Implicit Types (w : world WeatherData) (c : command).

Lemma getRedisClient_eq w : getRedisClient w = (Return tt, snd (getRedisClient w)).
Proof. unfold getRedisClient. by destruct (redisClient w). Qed.

Lemma getRedisClient_frame w :
  let w0 := snd (getRedisClient w) in
  now w0 = now w /\ db w0 = db w /\ faults w0 = faults w /\ steady w0 = steady w /\
  upstream w0 = upstream w /\ pending w0 = pending w /\ log w0 = log w.
Proof. unfold getRedisClient. by destruct (redisClient w). Qed.

Lemma next_fault_connect w : next_fault (snd (getRedisClient w)) = next_fault w.
Proof. unfold getRedisClient, next_fault. by destruct (redisClient w). Qed.

(** [checkRateLimit], case by case on what the connection does. *)
Lemma checkRateLimit_cases identifier w :
  let key := rateLimitKey identifier in
  let w0 := snd (getRedisClient w) in
  let oops := complain "Rate limit check failed:" in
  checkRateLimit identifier w =
    match next_fault w with
    | Refused => (Return tt, oops (sent (INCR key) w0))
    | ReplyLost => (Return tt, oops (served (INCR key) w0))
    | Healthy =>
        let w1 := served (INCR key) w0 in
        match fst (Redis.exec (INCR key) (now w) (db w)) with
        | RErr _ => (Return tt, oops w1)
        | RInt n =>
            if n =? 1 then
              match next_fault w1 with
              | Healthy => (Return tt, served (EXPIRE key window) w1)
              | Refused => (Return tt, oops (sent (EXPIRE key window) w1))
              | ReplyLost => (Return tt, oops (served (EXPIRE key window) w1))
              end
            else (if limit <? n then Throw rate_limit_exceeded else Return tt, w1)
        | _ => (Return tt, w1)
        end
    end.
Proof.
  intros key w0 oops.
  assert (next_fault w0 = next_fault w) as Hnf by apply next_fault_connect.
  destruct (getRedisClient_frame w) as (Hn & Hd & _). fold w0 in Hn, Hd.
  unfold checkRateLimit, bind. rewrite getRedisClient_eq. fold w0. fold key.
  unfold try_catch, bind, client_incr, bind, call.
  rewrite Hnf, Hn, Hd.
  destruct (next_fault w); try reflexivity.
  destruct (fst (Redis.exec (INCR key) (now w) (db w))) as [| |n| |m]; try reflexivity.
  unfold ret. rewrite Z.gtb_ltb. destruct (n =? 1) eqn:E1.
  - apply Z.eqb_eq in E1. subst n.
    unfold client_expire, bind, call.
    destruct (next_fault (served (INCR key) w0)); try reflexivity.
    destruct (exec_EXPIRE_reply key window (now (served (INCR key) w0))
                (db (served (INCR key) w0))) as [m ->].
    reflexivity.
  - destruct (limit <? n); reflexivity.
Qed.

(** [getCached], case by case. *)
Lemma getCached_cases key w :
  let w0 := snd (getRedisClient w) in
  let oops := complain "Redis GET error:" in
  getCached WeatherData JSON_parse key w =
    match next_fault w with
    | Refused => (Return Null, oops (sent (GET key) w0))
    | ReplyLost => (Return Null, oops (served (GET key) w0))
    | Healthy =>
        let w1 := served (GET key) w0 in
        match Redis.lookup (now w) (db w) key with
        | None => (Return Null, w1)
        | Some e =>
            if is_empty (e_val e) then (Return Null, w1)
            else match JSON_parse (e_val e) with
                 | Some v => (Return v, w1)
                 | None => (Return Null, oops w1)
                 end
        end
    end.
Proof.
  intros w0 oops.
  assert (next_fault w0 = next_fault w) as Hnf by apply next_fault_connect.
  destruct (getRedisClient_frame w) as (Hn & Hd & _). fold w0 in Hn, Hd.
  unfold getCached, try_catch, bind. rewrite getRedisClient_eq. fold w0.
  unfold client_get, bind, call. rewrite Hnf, Hn, Hd.
  destruct (next_fault w); try reflexivity.
  unfold Redis.exec. destruct (Redis.lookup (now w) (db w) key) as [e|]; [|reflexivity].
  simpl. destruct (is_empty (e_val e)); [reflexivity|].
  destruct (JSON_parse (e_val e)); reflexivity.
Qed.

(** [setCached], case by case. *)
Lemma setCached_cases key value ttl w :
  let w0 := snd (getRedisClient w) in
  let oops := complain "Redis SET error:" in
  let c := SETEX key ttl (JSON_stringify value) in
  setCached WeatherData JSON_stringify key value ttl w =
    match next_fault w with
    | Refused => (Return tt, oops (sent c w0))
    | ReplyLost => (Return tt, oops (served c w0))
    | Healthy =>
        if ttl <=? 0 then (Return tt, oops (served c w0))
        else (Return tt, served c w0)
    end.
Proof.
  intros w0 oops c.
  assert (next_fault w0 = next_fault w) as Hnf by apply next_fault_connect.
  unfold setCached, try_catch, bind. rewrite getRedisClient_eq. fold w0.
  unfold client_setex, bind, call. rewrite Hnf. fold c.
  destruct (next_fault w); try reflexivity.
  unfold c, Redis.exec. destruct (ttl <=? 0); reflexivity.
Qed.

(** [delCached], case by case. *)
Lemma delCached_cases key w :
  let w0 := snd (getRedisClient w) in
  let oops := complain "Redis DEL error:" in
  delCached key w =
    match next_fault w with
    | Refused => (Return tt, oops (sent (DEL key) w0))
    | ReplyLost => (Return tt, oops (served (DEL key) w0))
    | Healthy => (Return tt, served (DEL key) w0)
    end.
Proof.
  intros w0 oops.
  assert (next_fault w0 = next_fault w) as Hnf by apply next_fault_connect.
  unfold delCached, try_catch, bind. rewrite getRedisClient_eq. fold w0.
  unfold client_del, bind, call. rewrite Hnf.
  destruct (next_fault w); try reflexivity.
  destruct (exec_DEL_reply key (now w0) (db w0)) as [n ->]. reflexivity.
Qed.

End HandlerFacts.

(** ** The fetcher *)

Section Fetcher.
Context {WeatherData : Type}.
Implicit Types (w : world WeatherData).

(** [fetchWeather], case by case on the outcome of the upstream call. *)
Lemma fetchWeather_cases (location : string) w :
  fetchWeather location w =
    (match upstream w location with
     | Response status body =>
         if validateStatus status then Return body
         else if status =? 400 then Throw invalid_location
         else if status =? 401 then Throw authentication_failed
         else Throw (request_failed (AxiosError (Some status)))
     | Timeout | NetworkError => Throw (request_failed (AxiosError None))
     end, emit (HttpGet location) w).
Proof.
  unfold fetchWeather, try_catch, axios_get.
  destruct (upstream w location) as [status body| |]; try reflexivity.
  destruct (validateStatus status); [reflexivity|].
  destruct (Z.eqb_spec status 400) as [->|H4].
  { by rewrite decide_True. }
  rewrite decide_False by congruence.
  destruct (Z.eqb_spec status 401) as [->|H1].
  { by rewrite decide_True. }
  by rewrite decide_False by congruence.
Qed.


End Fetcher.

(** ** The rate limiter on a failing store *)

Section RateLimiterFailures.
Context {WeatherData : Type}.
Implicit Types (w : world WeatherData).

(** C8. When the increment of the window counter fails, [checkRateLimit]
    returns normally, so the request is admitted, and it logs the failure:
    after the [INCR] it sent, the only thing it does is [console.error]. *)
Theorem checkRateLimit_fails_open (identifier : string) w :
  incr_fails (rateLimitKey identifier) w ->
  fst (checkRateLimit identifier w) = Return tt /\
  log (snd (checkRateLimit identifier w)) =
    log w ++ [RedisCmd (INCR (rateLimitKey identifier));
              ConsoleError "Rate limit check failed:"].
Proof.
  intros H. rewrite checkRateLimit_cases.
  destruct (getRedisClient_frame w) as (_ & _ & _ & _ & _ & _ & Hl).
  destruct H as [H | [m H]].
  - destruct (next_fault w); [done| |]; simpl; rewrite Hl, <- app_assoc; done.
  - destruct (next_fault w); [|simpl; rewrite Hl, <- app_assoc; done..].
    rewrite H. simpl. rewrite Hl, <- app_assoc. done.
Qed.

(** The only error [checkRateLimit] raises is the rate-limit error, and
    only after an increment that Redis served with a count above the
    limit. *)
Lemma checkRateLimit_throws identifier w e :
  fst (checkRateLimit identifier w) = Throw e ->
  e = rate_limit_exceeded /\
  next_fault w = Healthy /\
  exists n, fst (Redis.exec (INCR (rateLimitKey identifier)) (now w) (db w)) = RInt n /\
            limit < n.
Proof.
  rewrite checkRateLimit_cases. cbv zeta.
  destruct (next_fault w); [|done..].
  destruct (fst (Redis.exec _ _ _)) as [| |n| |m]; try done.
  destruct (n =? 1).
  - by destruct (next_fault (served _ _)).
  - destruct (Z.ltb_spec limit n); [|done].
    simpl. intros [= <-]. eauto.
Qed.

End RateLimiterFailures.

Lemma checkRateLimit_fails_open_witness :
  fst (checkRateLimit "default" (Demo.boot [Refused] Healthy)) = Return tt /\
  log (snd (checkRateLimit "default" (Demo.boot [Refused] Healthy))) =
    [RedisCmd (INCR "ratelimit:weather:default");
     ConsoleError "Rate limit check failed:"].
Proof.
  apply (checkRateLimit_fails_open "default" (Demo.boot [Refused] Healthy)).
  left. simpl. discriminate.
Defined.

(** ** Frames: what the handlers leave alone *)

(** Closes [Forall P evs] for an explicit list of events. *)
Ltac each_event :=
  repeat first [apply Forall_nil_2 | apply Forall_cons_2; [by eauto 6|]].

Section Frames.
Context {WeatherData : Type}.
Variable JSON_stringify : WeatherData -> string.
Variable JSON_parse : string -> option (nullable WeatherData).
Implicit Types (w : world WeatherData).

Lemma outage_next w : outage w -> next_fault w <> Healthy.
Proof.
  intros [Hf Hs]. unfold next_fault.
  destruct (faults w) as [|f fs]; [done|]. by inversion Hf.
Qed.

Lemma outage_step w w' :
  outage w ->
  faults w' = faults w \/ faults w' = tail (faults w) ->
  steady w' = steady w ->
  outage w'.
Proof.
  intros [Hf Hs] [E|E] Es; split; rewrite ?Es, ?E; try done.
  destruct (faults w); [done|]. by inversion Hf.
Qed.

(** The rate limiter touches no key but the caller's counter, queues
    nothing and only sends [INCR] and [EXPIRE] for that counter. *)
Lemma checkRateLimit_frame identifier w :
  let w' := snd (checkRateLimit identifier w) in
  let key := rateLimitKey identifier in
  now w' = now w /\ upstream w' = upstream w /\ pending w' = pending w /\
  steady w' = steady w /\
  (forall k, k <> key -> db w' !! k = db w !! k) /\
  exists evs, log w' = log w ++ evs /\
              Forall (fun ev => ev = RedisCmd (INCR key) \/
                                ev = RedisCmd (EXPIRE key window) \/
                                exists label, ev = ConsoleError label) evs.
Proof.
  intros w' key. subst w'. rewrite checkRateLimit_cases. fold key.
  destruct (getRedisClient_frame w) as (Hn & Hd & Hf & Hs & Hu & Hp & Hl).
  set (w0 := snd (getRedisClient w)) in *.
  assert (forall k, k <> key ->
            snd (Redis.exec (INCR key) (now w0) (db w0)) !! k = db w !! k) as Hincr.
  { intros k Hk. rewrite RedisFacts.exec_frame by done. by rewrite Hd. }
  assert (forall t d k, k <> key ->
            snd (Redis.exec (EXPIRE key window) t d) !! k = d !! k) as Hexp.
  { intros t d k Hk. by rewrite RedisFacts.exec_frame. }
  assert (forall l, log w0 ++ l = log w ++ l) as Hlog by (by intros; rewrite Hl).
  cbv zeta.
  destruct (next_fault w);
    [destruct (fst (Redis.exec (INCR key) (now w) (db w))) as [| |n| |m];
       [| |destruct (n =? 1); [destruct (next_fault (served (INCR key) w0))|]| |]| |];
    simpl; rewrite <- ?app_assoc; (repeat split; try done);
    try (intros k Hk; rewrite ?Hexp by done; first [by apply Hincr | by rewrite Hd]);
    (eexists; split; [apply Hlog|]); each_event.
Qed.

(** [getCached] never throws. *)
Lemma getCached_returns key w :
  exists v, fst (getCached WeatherData JSON_parse key w) = Return v.
Proof.
  rewrite getCached_cases. cbv zeta.
  destruct (next_fault w); try by eexists.
  destruct (Redis.lookup (now w) (db w) key) as [e|]; [|by eexists].
  destruct (is_empty (e_val e)); [by eexists|].
  destruct (JSON_parse (e_val e)); by eexists.
Qed.

(** [getCached] is a read: keyspace, clock and queue are as before, and
    the only command it sends is the [GET]. *)
Lemma getCached_frame key w :
  let w' := snd (getCached WeatherData JSON_parse key w) in
  now w' = now w /\ upstream w' = upstream w /\ pending w' = pending w /\
  steady w' = steady w /\ db w' = db w /\
  exists evs, log w' = log w ++ RedisCmd (GET key) :: evs /\
              Forall (fun ev => exists label, ev = ConsoleError label) evs.
Proof.
  intros w'. subst w'. rewrite getCached_cases.
  destruct (getRedisClient_frame w) as (Hn & Hd & Hf & Hs & Hu & Hp & Hl).
  set (w0 := snd (getRedisClient w)) in *.
  assert (snd (Redis.exec (GET key) (now w0) (db w0)) = db w) as Hget
    by (by rewrite RedisFacts.exec_GET_db).
  cbv zeta.
  destruct (next_fault w).
  - destruct (Redis.lookup (now w) (db w) key) as [e|];
      [destruct (is_empty (e_val e)); [|destruct (JSON_parse (e_val e))]|];
      simpl; repeat split; try done;
      (eexists; split; [by rewrite Hl, <- ?app_assoc | each_event]).
  - simpl. repeat split; try done.
    eexists; split; [by rewrite Hl, <- ?app_assoc | each_event].
  - simpl. repeat split; try done.
    eexists; split; [by rewrite Hl, <- ?app_assoc | each_event].
Qed.

(** [setCached] never throws. *)
Lemma setCached_returns key value ttl w :
  fst (setCached WeatherData JSON_stringify key value ttl w) = Return tt.
Proof.
  rewrite setCached_cases. cbv zeta.
  destruct (next_fault w); [|done..]. by destruct (ttl <=? 0).
Qed.

Lemma run_all_returns cs w :
  fst (run_all WeatherData JSON_stringify cs w) = Return tt.
Proof.
  revert w. induction cs as [|[key value ttl] cs IH]; intros w; [done|].
  simpl. unfold bind.
  destruct (setCached WeatherData JSON_stringify key value ttl w) as [o w1] eqn:E.
  pose proof (setCached_returns key value ttl w) as H. rewrite E in H.
  simpl in H. subst o. apply IH.
Qed.

(** Settling the calls that were not awaited never throws: there is no
    unhandled rejection. *)
Lemma settle_returns w : fst (settle WeatherData JSON_stringify w) = Return tt.
Proof. unfold settle. apply run_all_returns. Qed.

(** The resolver of [getCurrent] on a valid input, one call at a time. *)
Lemma getCurrent_unfold forwardedFor location w :
  location <> EmptyString ->
  getCurrent WeatherData JSON_parse forwardedFor location w =
    let key := getCacheKey location in
    match checkRateLimit (identifierOf forwardedFor) w with
    | (Throw e, w1) => (Throw e, w1)
    | (Return _, w1) =>
        match getCached WeatherData JSON_parse key w1 with
        | (Throw e, w2) => (Throw e, w2)
        | (Return (Obj c), w2) => (Return (CurrentWeather c true), w2)
        | (Return _, w2) =>
            match fetchWeather location w2 with
            | (Throw e, w3) => (Throw e, w3)
            | (Return d, w3) =>
                (Return (CurrentWeather d false),
                 set_pending WeatherData
                   (pending w3 ++ [SetCachedCall key d CACHE_TTL_SECONDS]) w3)
            end
        end
    end.
Proof.
  intros H. unfold getCurrent, input.
  destruct location as [|a location]; [done|].
  assert ((String.length (String a location) <? 1)%nat = false) as -> by reflexivity.
  unfold bind, detach, ret.
  destruct (checkRateLimit _ w) as [[[]|e] w1]; [|done].
  destruct (getCached _ _ _ w1) as [[[| |c]|e] w2]; try done;
    by destruct (fetchWeather _ w2) as [[d|e] w3].
Qed.

End Frames.

(** ** The cache layer *)

Section CacheLayer.
Context {WeatherData : Type}.
Variable JSON_stringify : WeatherData -> string.
Variable JSON_parse : string -> option (nullable WeatherData).
Implicit Types (w : world WeatherData).

#[local] Abbreviation getCached := (getCached WeatherData JSON_parse).
#[local] Abbreviation setCached := (setCached WeatherData JSON_stringify).
#[local] Abbreviation getCurrent := (getCurrent WeatherData JSON_parse).
#[local] Abbreviation settle := (settle WeatherData JSON_stringify).

Lemma getCached_read_fails key w :
  read_fails JSON_parse key w -> fst (getCached key w) = Return Null.
Proof.
  intros H. rewrite getCached_cases. cbv zeta.
  destruct H as [H | (e & He & Hne & Hp)].
  - by destruct (next_fault w).
  - destruct (next_fault w); [|done..]. by rewrite He, Hne, Hp.
Qed.

Lemma checkRateLimit_outage identifier w :
  outage w ->
  exists w1, checkRateLimit identifier w = (Return tt, w1) /\
             outage w1 /\ upstream w1 = upstream w.
Proof.
  intros Ho. pose proof (outage_next w Ho) as Hnf.
  rewrite checkRateLimit_cases. cbv zeta.
  destruct (getRedisClient_frame w) as (_ & _ & Hf & Hs & Hu & _).
  destruct (next_fault w); [done| |]; eexists; (split; [done|]); split; try done;
    apply (outage_step w); auto; right; simpl; by rewrite Hf.
Qed.

Lemma getCached_outage key w :
  outage w ->
  exists w2, getCached key w = (Return Null, w2) /\
             outage w2 /\ upstream w2 = upstream w.
Proof.
  intros Ho. pose proof (outage_next w Ho) as Hnf.
  rewrite getCached_cases. cbv zeta.
  destruct (getRedisClient_frame w) as (_ & _ & Hf & Hs & Hu & _).
  destruct (next_fault w); [done| |]; eexists; (split; [done|]); split; try done;
    apply (outage_step w); auto; right; simpl; by rewrite Hf.
Qed.

(** C6. Cache reads and writes never raise.  [getCached] always
    returns, and returns [null] when the read fails (the command is not
    served, or the stored text does not deserialize).  [setCached] always
    returns, and a write that does not reach the server leaves the
    keyspace as it was.  With the cache backend out for good, [getCurrent]
    on a valid input still returns the upstream data with
    [fromCache = false], and settling the queued write raises nothing. *)
Theorem cache_is_best_effort (key : string) (value : WeatherData) (ttl : Z) w :
  (exists v, fst (getCached key w) = Return v) /\
  (read_fails JSON_parse key w -> fst (getCached key w) = Return Null) /\
  fst (setCached key value ttl w) = Return tt /\
  (next_fault w = Refused -> db (snd (setCached key value ttl w)) = db w) /\
  (forall forwardedFor location status body,
     location <> EmptyString ->
     outage w ->
     upstream w location = Response status body ->
     validateStatus status = true ->
     fst (getCurrent forwardedFor location w) = Return (CurrentWeather body false) /\
     fst (settle (snd (getCurrent forwardedFor location w))) = Return tt).
Proof.
  split; [apply getCached_returns|].
  split; [apply getCached_read_fails|].
  split; [apply setCached_returns|].
  split.
  - intros H. rewrite setCached_cases, H. simpl.
    by destruct (getRedisClient_frame w) as (_ & -> & _).
  - intros forwardedFor location status body Hloc Ho Hu Hv.
    split; [|apply settle_returns].
    rewrite getCurrent_unfold by done. cbv zeta.
    destruct (checkRateLimit_outage (identifierOf forwardedFor) w Ho)
      as (w1 & -> & Ho1 & Hu1).
    destruct (getCached_outage (getCacheKey location) w1 Ho1) as (w2 & -> & Ho2 & Hu2).
    rewrite fetchWeather_cases, Hu2, Hu1, Hu, Hv. done.
Qed.

(** C10. A cache hit only reads the cache.  [getCached] leaves the
    keyspace (values and expirations) and the clock as they were, for
    every key.  When [getCurrent] answers from the cache, every key other
    than the caller's rate-limit counter is as before, the cached entry in
    particular; no write is queued; and the I/O performed is the counter's
    [INCR] and [EXPIRE], the [GET] of the entry and console messages: no
    [SETEX], no upstream call. *)
Theorem cache_hit_only_reads (forwardedFor : option string) (location : string)
    w (r : current_weather WeatherData) w' :
  getCurrent forwardedFor location w = (Return r, w') ->
  fromCache r = true ->
  let rateKey := rateLimitKey (identifierOf forwardedFor) in
  let cacheKey := getCacheKey location in
  (forall key w0, db (snd (getCached key w0)) = db w0 /\
                  now (snd (getCached key w0)) = now w0) /\
  (forall k, k <> rateKey -> db w' !! k = db w !! k) /\
  db w' !! cacheKey = db w !! cacheKey /\
  now w' = now w /\
  pending w' = pending w /\
  exists evs, log w' = log w ++ evs /\ Forall (hit_event rateKey cacheKey) evs.
Proof.
  intros Hrun Hhit rateKey cacheKey.
  split.
  { intros key w0. by destruct (getCached_frame JSON_parse key w0) as (? & _ & _ & _ & ? & _). }
  assert (location <> EmptyString) as Hloc.
  { intros ->.
    assert (getCurrent forwardedFor EmptyString w = (Throw invalid_input, w)) as E
      by reflexivity.
    rewrite E in Hrun. discriminate. }
  rewrite getCurrent_unfold in Hrun by done. cbv zeta in Hrun.
  pose proof (checkRateLimit_frame (identifierOf forwardedFor) w) as Hrl.
  destruct (checkRateLimit (identifierOf forwardedFor) w) as [[[]|e] w1]; [|done].
  pose proof (getCached_frame JSON_parse (getCacheKey location) w1) as Hget.
  destruct (getCached (getCacheKey location) w1) as [[[| |c]|e] w2];
    [destruct (fetchWeather location w2) as [[d|e'] w3];
       [injection Hrun as <- <-; done | done]..| |done].
  injection Hrun as <- <-. clear Hhit.
  simpl in Hrl, Hget. fold rateKey in Hrl. fold cacheKey in Hget.
  destruct Hrl as (Hn1 & _ & Hp1 & _ & Hd1 & evs1 & Hl1 & He1).
  destruct Hget as (Hn2 & _ & Hp2 & _ & Hd2 & evs2 & Hl2 & He2).
  assert (forall k, k <> rateKey -> db w2 !! k = db w !! k) as Hframe.
  { intros k Hk. rewrite Hd2. by apply Hd1. }
  split; [done|].
  split; [apply Hframe, cache_key_not_rate_key|].
  split; [congruence|]. split; [congruence|].
  exists (evs1 ++ RedisCmd (GET cacheKey) :: evs2).
  split; [by rewrite Hl2, Hl1, <- app_assoc|].
  apply Forall_app. split.
  - eapply Forall_impl; [exact He1|].
    intros ev [->|[->|[l ->]]]; unfold hit_event; eauto 6.
  - apply Forall_cons. split; [unfold hit_event; eauto 6|].
    eapply Forall_impl; [exact He2|].
    intros ev [l ->]; unfold hit_event; eauto 6.
Qed.

(** [clearCache] on a valid input returns [success: true] whatever the
    connection does. *)
Lemma clearCache_always_succeeds location w :
  location <> EmptyString -> fst (clearCache location w) = Return true.
Proof.
  intros H. unfold clearCache, input.
  destruct location as [|a location]; [done|].
  assert ((String.length (String a location) <? 1)%nat = false) as -> by reflexivity.
  unfold try_catch, bind. rewrite delCached_cases. cbv zeta.
  by destruct (next_fault w).
Qed.

End CacheLayer.

(** ** The rate limiter over one window *)

Lemma total_nonneg gaps : Forall (fun g => 0 <= g) gaps -> 0 <= total gaps.
Proof. induction 1; simpl; lia. Qed.

Section Window.
Context {WeatherData : Type}.
Implicit Types (w : world WeatherData).

Lemma healthy_next w : healthy w -> next_fault w = Healthy.
Proof. intros [Hf Hs]. unfold next_fault. by rewrite Hf. Qed.

Lemma healthy_connect w : healthy w -> healthy (snd (getRedisClient w)).
Proof.
  intros [Hf Hs]. destruct (getRedisClient_frame w) as (_ & _ & Hf' & Hs' & _).
  split; congruence.
Qed.

Lemma healthy_served c w : healthy w -> healthy (served c w).
Proof. intros [Hf Hs]. split; simpl; [by rewrite Hf | done]. Qed.

Lemma verdict_code n :
  (if limit <? n then Throw rate_limit_exceeded else Return tt) = verdict n.
Proof.
  unfold verdict.
  destruct (Z.ltb_spec limit n), (Z.leb_spec n limit); done || lia.
Qed.

(** The request that creates the counter: admitted, count 1, and the
    counter expires one window later. *)
Lemma checkRateLimit_first identifier w :
  let key := rateLimitKey identifier in
  let w' := snd (checkRateLimit identifier w) in
  healthy w ->
  Redis.lookup (now w) (db w) key = None ->
  fst (checkRateLimit identifier w) = Return tt /\
  healthy w' /\ now w' = now w /\
  db w' = <[key := Entry (Redis.print_int 1) (Some (now w + window))]> (db w) /\
  log w' = log w ++ [RedisCmd (INCR key); RedisCmd (EXPIRE key window)].
Proof.
  intros key w' Hh Hfresh. subst w'.
  rewrite checkRateLimit_cases. fold key. cbv zeta.
  destruct (getRedisClient_frame w) as (Hn & Hd & _ & _ & _ & _ & Hl).
  pose proof (healthy_connect w Hh) as Hh0.
  set (w0 := snd (getRedisClient w)) in *.
  rewrite (healthy_next w Hh), exec_INCR_fresh by done.
  simpl fst. cbv beta iota.
  change (1 =? 1) with true. cbv iota.
  rewrite (healthy_next _ (healthy_served (INCR key) w0 Hh0)).
  split; [done|]. split; [by do 2 apply healthy_served|].
  split; [done|]. split; [|simpl; by rewrite Hl, <- app_assoc].
  simpl. rewrite Hn, Hd, exec_INCR_fresh by done. simpl snd.
  rewrite (exec_EXPIRE_live _ _ _ (Entry (Redis.print_int 1) None)); [|by unfold Redis.lookup; rewrite lookup_insert_eq|done].
  simpl. by rewrite insert_insert_eq.
Qed.

(** A later request of the window: the count goes up by one, the
    expiration stays, and the request is admitted when the new count is
    within the limit. *)
Lemma checkRateLimit_next identifier w k exp :
  let key := rateLimitKey identifier in
  let w' := snd (checkRateLimit identifier w) in
  healthy w ->
  counter_at key k exp w ->
  Redis.live (now w) (Entry (Redis.print_int k) exp) = true ->
  1 <= k < Redis.INT64_MAX ->
  fst (checkRateLimit identifier w) = verdict (k + 1) /\
  healthy w' /\ now w' = now w /\
  db w' = <[key := Entry (Redis.print_int (k + 1)) exp]> (db w) /\
  log w' = log w ++ [RedisCmd (INCR key)].
Proof.
  intros key w' Hh Hc Hlive Hk. subst w'.
  rewrite checkRateLimit_cases. fold key. cbv zeta.
  destruct (getRedisClient_frame w) as (Hn & Hd & _ & _ & _ & _ & Hl).
  pose proof (healthy_connect w Hh) as Hh0.
  set (w0 := snd (getRedisClient w)) in *.
  assert (Redis.INT64_MIN <= k < Redis.INT64_MAX) as Hk'
    by (unfold Redis.INT64_MIN; lia).
  rewrite (healthy_next w Hh), (exec_INCR_counter _ _ _ k exp) by done.
  simpl fst. cbv beta iota.
  destruct (Z.eqb_spec (k + 1) 1) as [|_]; [lia|].
  rewrite verdict_code.
  split; [done|]. split; [by apply healthy_served|].
  split; [done|]. split; [|simpl; by rewrite Hl].
  simpl. by rewrite Hn, Hd, (exec_INCR_counter _ _ _ k exp).
Qed.

Lemma healthy_tick g w : healthy w -> healthy (tick g w).
Proof. by intros [Hf Hs]. Qed.

(** Requests that follow the first one of a window, while it lasts. *)
Lemma requests_counting identifier gaps :
  let key := rateLimitKey identifier in
  forall w k x,
    healthy w ->
    counter_at key k (Some x) w ->
    1 <= k ->
    k + Z.of_nat (length gaps) <= Redis.INT64_MAX ->
    Forall (fun g => 0 <= g) gaps ->
    now w + total gaps < x ->
    forall (i : nat) r,
      requests identifier gaps w !! i = Some r ->
      fst r = verdict (k + Z.of_nat i + 1) /\
      counter_at key (k + Z.of_nat i + 1) (Some x) (snd r) /\
      log (snd r) = log w ++ repeat (RedisCmd (INCR key)) (S i).
Proof.
  intros key. induction gaps as [|g gs IH]; intros w k x Hh Hc Hk Hmax Hpos Hwin i r Hi.
  { done. }
  apply Forall_cons in Hpos as [Hg Hgs]. simpl in Hwin, Hmax.
  pose proof (total_nonneg gs Hgs) as Htot.
  assert (healthy (tick g w)) as Hht by (by apply healthy_tick).
  assert (Redis.live (now (tick g w)) (Entry (Redis.print_int k) (Some x)) = true)
    as Hlive by (unfold Redis.live; simpl; apply Z.ltb_lt; lia).
  assert (1 <= k < Redis.INT64_MAX) as Hk2 by lia.
  destruct (checkRateLimit_next identifier (tick g w) k (Some x) Hht Hc Hlive Hk2)
    as (Hv & Hh1 & Hn1 & Hd1 & Hl1).
  fold key in Hd1, Hl1. simpl in Hd1, Hl1, Hn1.
  destruct i as [|i]; simpl in Hi.
  - injection Hi as <-. rewrite Z.add_0_r.
    split; [done|]. split; [|done].
    unfold counter_at. rewrite Hd1. apply lookup_insert_eq.
  - assert (counter_at key (k + 1) (Some x) (snd (checkRateLimit identifier (tick g w))))
      as Hc1 by (unfold counter_at; rewrite Hd1; apply lookup_insert_eq).
    assert (1 <= k + 1) as Hk3 by lia.
    assert (k + 1 + Z.of_nat (length gs) <= Redis.INT64_MAX) as Hmax1 by lia.
    assert (now (snd (checkRateLimit identifier (tick g w))) + total gs < x)
      as Hwin1 by (rewrite Hn1; lia).
    destruct (IH _ (k + 1) x Hh1 Hc1 Hk3 Hmax1 Hgs Hwin1 i r Hi) as (Hv' & Hc' & Hl').
    replace (k + Z.of_nat (S i) + 1) with (k + 1 + Z.of_nat i + 1) by lia.
    split; [done|]. split; [done|].
    rewrite Hl', Hl1. simpl. by rewrite <- app_assoc.
Qed.

(** A whole window, from the request that opens it. *)
Lemma requests_window identifier g gs w :
  let key := rateLimitKey identifier in
  healthy w ->
  Redis.lookup (now w + g) (db w) key = None ->
  Forall (fun d => 0 <= d) gs ->
  total gs < window ->
  Z.of_nat (length gs) < Redis.INT64_MAX ->
  forall (i : nat) r,
    requests identifier (g :: gs) w !! i = Some r ->
    fst r = verdict (Z.of_nat i + 1) /\
    counter_at key (Z.of_nat i + 1) (Some (now w + g + window)) (snd r) /\
    log (snd r) =
      log w ++ RedisCmd (INCR key) :: RedisCmd (EXPIRE key window)
            :: repeat (RedisCmd (INCR key)) i.
Proof.
  intros key Hh Hfresh Hpos Hwin Hmax i r Hi.
  assert (healthy (tick g w)) as Hht by (by apply healthy_tick).
  destruct (checkRateLimit_first identifier (tick g w) Hht Hfresh)
    as (Hv & Hh1 & Hn1 & Hd1 & Hl1).
  fold key in Hd1, Hl1. simpl in Hd1, Hl1, Hn1.
  pose proof (total_nonneg gs Hpos) as Htot.
  destruct i as [|i]; simpl in Hi.
  - injection Hi as <-. split; [done|]. split; [|done].
    unfold counter_at. rewrite Hd1. apply lookup_insert_eq.
  - assert (counter_at key 1 (Some (now w + g + window))
              (snd (checkRateLimit identifier (tick g w))))
      as Hc1 by (unfold counter_at; rewrite Hd1; apply lookup_insert_eq).
    assert (1 + Z.of_nat (length gs) <= Redis.INT64_MAX) as Hmax1 by lia.
    assert (now (snd (checkRateLimit identifier (tick g w))) + total gs
            < now w + g + window) as Hwin1 by (rewrite Hn1; lia).
    destruct (requests_counting identifier gs _ 1 (now w + g + window)
                Hh1 Hc1 ltac:(lia) Hmax1 Hpos Hwin1 i r Hi) as (Hv' & Hc' & Hl').
    fold key in Hc', Hl'.
    replace (Z.of_nat (S i) + 1) with (1 + Z.of_nat i + 1) by lia.
    split; [done|]. split; [done|].
    rewrite Hl', Hl1. rewrite <- app_assoc. done.
Qed.

Lemma requests_length identifier gaps w :
  length (requests identifier gaps w) = length gaps.
Proof.
  revert w. induction gaps as [|g gs IH]; intros w; simpl; [done | by rewrite IH].
Qed.

Lemma no_EXPIRE_in_INCRs key n :
  List.filter (is_EXPIRE key) (repeat (RedisCmd (INCR key)) n) = [].
Proof. induction n as [|n IH]; simpl; done. Qed.

(** C3. One caller, one window, the store healthy: starting with no live
    counter, each call increments the counter, so that the call number
    [i + 1] leaves it at [i + 1]; that call is admitted exactly when
    [i + 1] is at most the limit of 100, and is rejected with the
    [TOO_MANY_REQUESTS] error exactly when [i + 1] exceeds it.  So the first
    100 calls are admitted and the 101st is rejected. *)
Theorem checkRateLimit_admits_up_to_limit (identifier : string) (g : Z) (gs : list Z) w :
  healthy w ->
  Redis.lookup (now w + g) (db w) (rateLimitKey identifier) = None ->
  Forall (fun d => 0 <= d) gs ->
  total gs < window ->
  Z.of_nat (length gs) < Redis.INT64_MAX ->
  limit = 100 /\
  code_of rate_limit_exceeded = Some TOO_MANY_REQUESTS /\
  length (requests identifier (g :: gs) w) = S (length gs) /\
  forall (i : nat) r,
    requests identifier (g :: gs) w !! i = Some r ->
    counter_at (rateLimitKey identifier) (Z.of_nat i + 1)
               (Some (now w + g + window)) (snd r) /\
    (fst r = Return tt <-> Z.of_nat i + 1 <= limit) /\
    (fst r = Throw rate_limit_exceeded <-> limit < Z.of_nat i + 1).
Proof.
  intros Hh Hfresh Hpos Hwin Hmax.
  split; [done|]. split; [done|].
  split; [apply (requests_length identifier (g :: gs))|].
  intros i r Hi.
  destruct (requests_window identifier g gs w Hh Hfresh Hpos Hwin Hmax i r Hi)
    as (Hv & Hc & _).
  split; [done|]. rewrite Hv. unfold verdict.
  destruct (Z.leb_spec (Z.of_nat i + 1) limit); split; split; (done || lia).
Qed.

(** C4. One caller, one window, the store healthy: over the calls of the
    window, [EXPIRE] is sent once, right after the first [INCR], and after
    every call the counter expires when the first call said, one window
    after it.  In general a call sends [EXPIRE] exactly when its [INCR]
    returned 1. *)
Theorem expiry_set_once_per_window (identifier : string) (g : Z) (gs : list Z) w :
  healthy w ->
  Redis.lookup (now w + g) (db w) (rateLimitKey identifier) = None ->
  Forall (fun d => 0 <= d) gs ->
  total gs < window ->
  Z.of_nat (length gs) < Redis.INT64_MAX ->
  let key := rateLimitKey identifier in
  (forall (i : nat) r,
     requests identifier (g :: gs) w !! i = Some r ->
     log (snd r) =
       log w ++ RedisCmd (INCR key) :: RedisCmd (EXPIRE key window)
             :: repeat (RedisCmd (INCR key)) i /\
     List.filter (is_EXPIRE key) (drop (length (log w)) (log (snd r))) =
       [RedisCmd (EXPIRE key window)] /\
     exists k, db (snd r) !! key =
               Some (Entry (Redis.print_int k) (Some (now w + g + window)))) /\
  (forall w0 n,
     next_fault w0 = Healthy ->
     fst (Redis.exec (INCR key) (now w0) (db w0)) = RInt n ->
     List.filter (is_EXPIRE key)
       (drop (length (log w0)) (log (snd (checkRateLimit identifier w0)))) =
       if n =? 1 then [RedisCmd (EXPIRE key window)] else []).
Proof.
  intros Hh Hfresh Hpos Hwin Hmax key. split.
  - intros i r Hi.
    destruct (requests_window identifier g gs w Hh Hfresh Hpos Hwin Hmax i r Hi)
      as (_ & Hc & Hl).
    fold key in Hc, Hl. split; [done|]. split; [|by eexists].
    rewrite Hl, drop_app_length. simpl.
    by rewrite String.eqb_refl, no_EXPIRE_in_INCRs.
  - intros w0 n Hnf Hr.
    rewrite checkRateLimit_cases. fold key. cbv zeta. rewrite Hnf, Hr.
    destruct (getRedisClient_frame w0) as (_ & _ & _ & _ & _ & _ & Hl).
    destruct (n =? 1); [destruct (next_fault (served (INCR key) _))|];
      simpl; rewrite Hl, <- ?app_assoc, drop_app_length; simpl;
      by rewrite ?String.eqb_refl.
Qed.

End Window.

Lemma checkRateLimit_admits_up_to_limit_witness :
  let rs := requests "default" (0 :: repeat 1 100) (Demo.boot [] Healthy) in
  length rs = 101%nat /\
  fst <$> rs !! 99%nat = Some (Return tt) /\
  fst <$> rs !! 100%nat = Some (Throw rate_limit_exceeded).
Proof.
  intros rs.
  assert (healthy (Demo.boot [] Healthy)) as Hh by (split; reflexivity).
  assert (Forall (fun d => 0 <= d) (repeat 1 100)) as Hpos.
  { apply Forall_forall. intros d Hd.
    apply list_elem_of_In, repeat_spec in Hd. lia. }
  destruct (checkRateLimit_admits_up_to_limit "default" 0 (repeat 1 100)
              (Demo.boot [] Healthy) Hh eq_refl Hpos eq_refl eq_refl)
    as (_ & _ & Hlen & Hcalls).
  fold rs in Hlen, Hcalls.
  split; [exact Hlen|]. split.
  - destruct (rs !! 99%nat) as [r|] eqn:E; [|vm_compute in E; discriminate].
    simpl. f_equal. apply (Hcalls 99%nat r E). unfold limit. lia.
  - destruct (rs !! 100%nat) as [r|] eqn:E; [|vm_compute in E; discriminate].
    simpl. f_equal. apply (Hcalls 100%nat r E). unfold limit. lia.
Defined.

Lemma expiry_set_once_per_window_witness :
  let key := "ratelimit:weather:default" in
  let rs := requests "default" (0 :: repeat 1 100) (Demo.boot [] Healthy) in
  (fun r => List.filter (is_EXPIRE key) (log (snd r))) <$> rs !! 100%nat =
    Some [RedisCmd (EXPIRE key 3600)].
Proof.
  intros key rs.
  assert (healthy (Demo.boot [] Healthy)) as Hh by (split; reflexivity).
  assert (Forall (fun d => 0 <= d) (repeat 1 100)) as Hpos.
  { apply Forall_forall. intros d Hd.
    apply list_elem_of_In, repeat_spec in Hd. lia. }
  destruct (expiry_set_once_per_window "default" 0 (repeat 1 100)
              (Demo.boot [] Healthy) Hh eq_refl Hpos eq_refl eq_refl)
    as (Hcalls & _).
  fold rs in Hcalls.
  destruct (rs !! 100%nat) as [r|] eqn:E; [|vm_compute in E; discriminate].
  simpl. f_equal. apply (Hcalls 100%nat r E).
Defined.

(** ** Explicit invalidation *)

(** C5 (what the code does). With Paris cached and the connection
    refusing the [DEL], [clearCache] still answers [success: true]: the
    failure is logged by [delCached] and never reaches the [catch] of
    [clearCache]; the entry is still there. *)
Theorem clearCache_hides_failed_delete :
  let w := Demo.running Demo.paris_cached [Refused] Healthy in
  let r := clearCache "Paris" w in
  fst r = Return true /\
  db (snd r) !! getCacheKey "Paris" = Some (Entry Demo.paris (Some 43200)) /\
  log (snd r) = [RedisCmd (DEL "weather:paris"); ConsoleError "Redis DEL error:"].
Proof. vm_compute. done. Qed.

(** ** A window whose expiration was never set *)

(** C9 (what the code does). The first request of a caller: the [INCR]
    is served and the [EXPIRE] is refused.  The request is admitted and the
    counter is left at 1 without expiration: it is live at every later
    time.  A hundred requests follow, a day apart; none sets an
    expiration, and the last one is rejected. *)
Theorem failed_expire_leaves_window_open :
  let key := "ratelimit:weather:default" in
  let first := checkRateLimit "default" (Demo.boot [Healthy; Refused] Healthy) in
  let later := requests "default" (repeat 86400 100) (snd first) in
  fst first = Return tt /\
  db (snd first) !! key = Some (Entry "1" None) /\
  (forall t, Redis.lookup t (db (snd first)) key = Some (Entry "1" None)) /\
  last (map fst later) = Some (Throw rate_limit_exceeded) /\
  (db <$> (snd <$> last later)) = Some {[ key := Entry "101" None ]} /\
  List.filter (is_EXPIRE key) (default [] (log <$> (snd <$> last later))) =
    [RedisCmd (EXPIRE key 3600)].
Proof.
  intros key first later.
  assert (db (snd first) = {[ key := Entry "1" None ]}) as Hdb by (by vm_compute).
  split; [by vm_compute|]. split; [by rewrite Hdb|].
  split; [intros t; unfold Redis.lookup; by rewrite Hdb|].
  by vm_compute.
Qed.

(** ** The request flow of [getCurrent] *)

Lemma no_HttpGet (P : event -> Prop) evs :
  (forall ev, P ev -> is_HttpGet ev = false) ->
  Forall P evs -> List.filter is_HttpGet evs = [].
Proof.
  intros HP. induction 1 as [|ev evs Hev _ IH]; simpl; [done|].
  by rewrite (HP ev Hev).
Qed.

Section Flow.
Context {WeatherData : Type}.
Variable JSON_stringify : WeatherData -> string.
Variable JSON_parse : string -> option (nullable WeatherData).
Implicit Types (w : world WeatherData).

#[local] Abbreviation getCached := (getCached WeatherData JSON_parse).
#[local] Abbreviation getCurrent := (getCurrent WeatherData JSON_parse).
#[local] Abbreviation settle := (settle WeatherData JSON_stringify).

(** The upstream calls logged once the rate limiter and the cache read
    are done are those logged before. *)
Lemma no_fetch_before_lookup identifier key w :
  let w1 := snd (checkRateLimit identifier w) in
  let w2 := snd (getCached key w1) in
  List.filter is_HttpGet (log w2) = List.filter is_HttpGet (log w).
Proof.
  intros w1 w2.
  destruct (checkRateLimit_frame identifier w) as (_ & _ & _ & _ & _ & evs1 & Hl1 & He1).
  destruct (getCached_frame JSON_parse key w1) as (_ & _ & _ & _ & _ & evs2 & Hl2 & He2).
  fold w1 in Hl1. fold w2 in Hl2.
  rewrite Hl2, Hl1, !List.filter_app. simpl.
  assert (List.filter is_HttpGet evs1 = []) as ->.
  { eapply no_HttpGet; [|exact He1]. by intros ev [->|[->|[l ->]]]. }
  assert (List.filter is_HttpGet evs2 = []) as ->.
  { eapply no_HttpGet; [|exact He2]. by intros ev [l ->]. }
  by rewrite !app_nil_r.
Qed.

(** C1 (amended). An empty location is rejected with [BAD_REQUEST] and
    the world untouched: no I/O.  For a non-empty location that the rate
    limiter admits:
    - a live entry at the cache key whose text is a value, read over a
      connection that serves the [GET], is what the cache read returns;
    - when the cache read returns a value, [getCurrent] returns it with
      [fromCache = true], makes no upstream call and queues no write;
    - otherwise it makes exactly one upstream call and, when that call
      gets a 2xx response, returns its data with [fromCache = false]; the
      write is queued, not performed (the keyspace is as the rate limiter
      left it), and settling it later raises nothing. *)
Theorem getCurrent_flow (forwardedFor : option string) (location : string) w :
  let identifier := identifierOf forwardedFor in
  let key := getCacheKey location in
  let w1 := snd (checkRateLimit identifier w) in
  let r := getCurrent forwardedFor location w in
  (location = EmptyString -> r = (Throw invalid_input, w)) /\
  (location <> EmptyString ->
   fst (checkRateLimit identifier w) = Return tt ->
   (forall e c,
      Redis.lookup (now w) (db w) key = Some e ->
      is_empty (e_val e) = false ->
      JSON_parse (e_val e) = Some (Obj c) ->
      next_fault w1 = Healthy ->
      fst (getCached key w1) = Return (Obj c)) /\
   (forall c,
      fst (getCached key w1) = Return (Obj c) ->
      fst r = Return (CurrentWeather c true) /\
      List.filter is_HttpGet (log (snd r)) = List.filter is_HttpGet (log w) /\
      pending (snd r) = pending w) /\
   ((forall c, fst (getCached key w1) <> Return (Obj c)) ->
      List.filter is_HttpGet (log (snd r)) =
        List.filter is_HttpGet (log w) ++ [HttpGet location] /\
      forall status body,
        upstream w location = Response status body ->
        validateStatus status = true ->
        fst r = Return (CurrentWeather body false) /\
        pending (snd r) = pending w ++ [SetCachedCall key body CACHE_TTL_SECONDS] /\
        db (snd r) = db w1 /\
        fst (settle (snd r)) = Return tt)).
Proof.
  intros identifier key w1 r. split.
  { intros ->. reflexivity. }
  intros Hloc Hadmit.
  pose proof (checkRateLimit_frame identifier w) as Hrl.
  pose proof (getCached_frame JSON_parse key w1) as Hget.
  pose proof (no_fetch_before_lookup identifier key w) as Hnofetch.
  fold w1 in Hrl, Hnofetch. cbv zeta in Hrl, Hget, Hnofetch.
  destruct Hrl as (Hn1 & Hu1 & Hp1 & _ & Hd1 & _).
  destruct Hget as (Hn2 & Hu2 & Hp2 & _ & Hd2 & _).
  assert (r = match getCached key w1 with
              | (Throw e, w2) => (Throw e, w2)
              | (Return (Obj c), w2) => (Return (CurrentWeather c true), w2)
              | (Return _, w2) =>
                  match fetchWeather location w2 with
                  | (Throw e, w3) => (Throw e, w3)
                  | (Return d, w3) =>
                      (Return (CurrentWeather d false),
                       set_pending WeatherData
                         (pending w3 ++ [SetCachedCall key d CACHE_TTL_SECONDS]) w3)
                  end
              end) as Hr.
  { subst r. rewrite getCurrent_unfold by done. cbv zeta. fold identifier key.
    subst w1. destruct (checkRateLimit identifier w) as [[[]|e] w1']; [done|].
    by simpl in Hadmit. }
  clearbody r. subst r.
  split; [|split].
  - intros e c He Hne Hparse Hnf.
    rewrite getCached_cases, Hnf. cbv zeta.
    assert (Redis.lookup (now w1) (db w1) key = Some e) as ->.
    { rewrite Hn1, <- He. apply RedisFacts.lookup_frame.
      apply Hd1, cache_key_not_rate_key. }
    by rewrite Hne, Hparse.
  - intros c Hc.
    destruct (getCached key w1) as [o w2]. simpl in Hc. subst o.
    simpl in *. split; [done|]. split; [done | congruence].
  - intros Hmiss.
    destruct (getCached_returns JSON_parse key w1) as [v Hv].
    destruct (getCached key w1) as [o w2]. simpl in Hv, Hmiss. subst o.
    simpl in Hn2, Hu2, Hp2, Hd2, Hnofetch.
    assert (forall T (m : WeatherData -> T) (n : T),
              match v with Obj c => m c | _ => n end = n) as Hv.
    { intros T m n. destruct v as [| |c]; try done. by destruct (Hmiss c). }
    rewrite Hv. rewrite fetchWeather_cases. split.
    + destruct (upstream w2 location) as [status body| |];
        [destruct (validateStatus status);
           [|destruct (status =? 400); [|destruct (status =? 401)]]| |];
        simpl; by rewrite List.filter_app, Hnofetch.
    + intros status body Hup Hok.
      rewrite Hu2, Hu1, Hup, Hok. simpl.
      split; [done|]. split; [congruence|]. split; [done|].
      apply settle_returns.
Qed.

End Flow.

Lemma getCurrent_flow_witness :
  (let w := Demo.running Demo.paris_cached [] Healthy in
   fst (Demo.getCurrent None "Paris" w) = Return (CurrentWeather Demo.paris true) /\
   List.filter is_HttpGet (log (snd (Demo.getCurrent None "Paris" w))) = [] /\
   pending (snd (Demo.getCurrent None "Paris" w)) = []) /\
  (let w := Demo.boot [] Healthy in
   fst (Demo.getCurrent None "Paris" w) = Return (CurrentWeather Demo.paris false) /\
   pending (snd (Demo.getCurrent None "Paris" w))
     = [SetCachedCall "weather:paris" Demo.paris 43200] /\
   List.filter is_HttpGet (log (snd (Demo.getCurrent None "Paris" w)))
     = [HttpGet "Paris"]).
Proof.
  split.
  - intros w.
    refine (proj1 (proj2 (proj2 (getCurrent_flow Demo.JSON_stringify Demo.JSON_parse
              None "Paris" w) _ _)) Demo.paris _).
    + discriminate.
    + reflexivity.
    + reflexivity.
  - intros w.
    destruct (proj2 (proj2 (proj2 (getCurrent_flow Demo.JSON_stringify Demo.JSON_parse
                None "Paris" w) ltac:(discriminate) eq_refl)))
      as (Hfetch & Hfresh).
    { intros c. discriminate. }
    destruct (Hfresh 200 Demo.paris eq_refl eq_refl) as (Hr & Hp & _).
    split; [exact Hr|]. split; [exact Hp | exact Hfetch].
Defined.

(** C1 as stated fails.  The rule that a held entry is always served is
    false: a caller that has used up its hour is turned away although
    Paris is cached; and with Paris cached but the [GET] refused, the
    answer comes from upstream with [fromCache = false]. *)
Lemma entry_is_always_served_fails :
  ~ entry_is_always_served Demo.JSON_parse /\
  (let w := Demo.running Demo.paris_cached_caller_spent [] Healthy in
   Redis.lookup (now w) (db w) (getCacheKey "Paris")
     = Some (Entry Demo.paris (Some 43200)) /\
   fst (Demo.getCurrent (Some "10.0.0.1") "Paris" w) = Throw rate_limit_exceeded) /\
  (let w := Demo.running Demo.paris_cached [Healthy; Healthy; Refused] Healthy in
   Redis.lookup (now w) (db w) (getCacheKey "Paris")
     = Some (Entry Demo.paris (Some 43200)) /\
   fst (Demo.getCurrent None "Paris" w) = Return (CurrentWeather Demo.paris false) /\
   List.filter is_HttpGet (log (snd (Demo.getCurrent None "Paris" w)))
     = [HttpGet "Paris"]).
Proof.
  split; [|split; [split; by vm_compute | repeat split; by vm_compute]].
  intros H.
  specialize (H (Some "10.0.0.1") "Paris"
                (Demo.running Demo.paris_cached_caller_spent [] Healthy)
                (Entry Demo.paris (Some 43200)) Demo.paris).
  vm_compute in H.
  specialize (H ltac:(discriminate) eq_refl eq_refl eq_refl). discriminate.
Qed.

(** ** The cache layer at work *)

Lemma cache_is_best_effort_witness :
  let w := Demo.boot [] Refused in
  fst (Demo.getCached "weather:paris" w) = Return Null /\
  fst (Demo.getCurrent None "Paris" w) = Return (CurrentWeather Demo.paris false) /\
  fst (Demo.settle (snd (Demo.getCurrent None "Paris" w))) = Return tt.
Proof.
  intros w.
  destruct (cache_is_best_effort Demo.JSON_stringify Demo.JSON_parse
              "weather:paris" Demo.paris 43200 w) as (_ & Hread & _ & _ & Hout).
  split.
  - apply Hread. left. discriminate.
  - apply (Hout None "Paris" 200 Demo.paris).
    + discriminate.
    + split; [constructor | discriminate].
    + reflexivity.
    + reflexivity.
Defined.

Lemma cache_hit_only_reads_witness :
  let w := Demo.running Demo.paris_cached [] Healthy in
  let w' := snd (Demo.getCurrent None "Paris" w) in
  db w' !! getCacheKey "Paris" = db w !! getCacheKey "Paris" /\
  now w' = now w /\
  pending w' = pending w.
Proof.
  intros w w'.
  destruct (cache_hit_only_reads Demo.JSON_parse None "Paris" w
              (CurrentWeather Demo.paris true) w' eq_refl eq_refl)
    as (_ & _ & Hentry & Hnow & Hpending & _).
  auto.
Defined.

(** ** Runs over a healthy connection *)

Section HealthyRuns.
Context {WeatherData : Type}.
Variable JSON_stringify : WeatherData -> string.
Variable JSON_parse : string -> option (nullable WeatherData).
Implicit Types (w : world WeatherData).

#[local] Abbreviation getCached := (getCached WeatherData JSON_parse).
#[local] Abbreviation setCached := (setCached WeatherData JSON_stringify).
#[local] Abbreviation getCurrent := (getCurrent WeatherData JSON_parse).
#[local] Abbreviation settle := (settle WeatherData JSON_stringify).

Lemma healthy_sent c w : healthy w -> healthy (sent c w).
Proof. intros [Hf Hs]. split; simpl; [by rewrite Hf | done]. Qed.

Lemma healthy_complain label w : healthy w -> healthy (complain label w).
Proof. by intros [Hf Hs]. Qed.

Lemma checkRateLimit_healthy identifier w :
  healthy w -> healthy (snd (checkRateLimit identifier w)).
Proof.
  intros Hh. rewrite checkRateLimit_cases. cbv zeta.
  pose proof (healthy_connect w Hh) as Hh0.
  set (w0 := snd (getRedisClient w)) in *.
  set (key := rateLimitKey identifier).
  rewrite (healthy_next w Hh).
  pose proof (healthy_served (INCR key) w0 Hh0) as Hh1.
  destruct (fst (Redis.exec (INCR key) (now w) (db w))) as [| |n| |m]; simpl;
    try done; try (by apply healthy_complain).
  destruct (n =? 1); [|done].
  rewrite (healthy_next _ Hh1). simpl. by apply healthy_served.
Qed.


(** A served read of a live entry returns what its text parses to. *)
Lemma getCached_value key w e v :
  next_fault w = Healthy ->
  Redis.lookup (now w) (db w) key = Some e ->
  is_empty (e_val e) = false ->
  JSON_parse (e_val e) = Some v ->
  fst (getCached key w) = Return v.
Proof.
  intros Hnf He Hne Hp. rewrite getCached_cases. cbv zeta.
  by rewrite Hnf, He, Hne, Hp.
Qed.

(** A served read of a key without live entry returns [null]. *)
Lemma getCached_absent key w :
  next_fault w = Healthy ->
  Redis.lookup (now w) (db w) key = None ->
  fst (getCached key w) = Return Null.
Proof.
  intros Hnf He. rewrite getCached_cases. cbv zeta. by rewrite Hnf, He.
Qed.

(** A served write with a positive TTL. *)
Lemma setCached_write key value ttl w :
  let w' := snd (setCached key value ttl w) in
  healthy w -> 0 < ttl ->
  healthy w' /\ now w' = now w /\
  db w' = <[key := Entry (JSON_stringify value) (Some (now w + ttl))]> (db w) /\
  pending w' = pending w /\ upstream w' = upstream w /\
  log w' = log w ++ [RedisCmd (SETEX key ttl (JSON_stringify value))].
Proof.
  intros w' Hh Httl. subst w'. rewrite setCached_cases. cbv zeta.
  destruct (getRedisClient_frame w) as (Hn & Hd & _ & _ & Hu & Hp & Hl).
  pose proof (healthy_connect w Hh) as Hh0.
  set (w0 := snd (getRedisClient w)) in *.
  rewrite (healthy_next w Hh).
  destruct (Z.leb_spec ttl 0) as [|_]; [lia|]. simpl.
  split; [by apply healthy_served|]. split; [done|].
  split; [|by rewrite Hl].
  unfold Redis.exec. destruct (Z.leb_spec ttl 0) as [|_]; [lia|].
  simpl. by rewrite Hn, Hd.
Qed.


(** The resolver of [getCurrent] when the cache read returns no value. *)
Lemma getCurrent_miss_eq forwardedFor location w :
  let key := getCacheKey location in
  let w1 := snd (checkRateLimit (identifierOf forwardedFor) w) in
  let w2 := snd (getCached key w1) in
  location <> EmptyString ->
  fst (checkRateLimit (identifierOf forwardedFor) w) = Return tt ->
  (forall c, fst (getCached key w1) <> Return (Obj c)) ->
  getCurrent forwardedFor location w =
    match fetchWeather location w2 with
    | (Throw e, w3) => (Throw e, w3)
    | (Return d, w3) =>
        (Return (CurrentWeather d false),
         set_pending WeatherData
           (pending w3 ++ [SetCachedCall key d CACHE_TTL_SECONDS]) w3)
    end.
Proof.
  intros key w1 w2 Hloc Hadmit Hmiss. subst w2 w1.
  rewrite getCurrent_unfold by done. cbv zeta. fold key.
  destruct (checkRateLimit (identifierOf forwardedFor) w) as [o w1].
  simpl in Hadmit, Hmiss |- *. subst o.
  destruct (getCached_returns JSON_parse key w1) as [v Hv].
  destruct (getCached key w1) as [o w2].
  simpl in Hv, Hmiss |- *. subst o.
  destruct v as [| |c]; try done. by destruct (Hmiss c).
Qed.

End HealthyRuns.

(** ** Cache entries over time *)

Lemma getCacheKey_same s1 s2 :
  Str.same_location s1 s2 -> getCacheKey s1 = getCacheKey s2.
Proof.
  intros [l1 c1 r1 l2 c2 r2 A1 A2 A3 A4 S].
  unfold getCacheKey. f_equal.
  rewrite !StrFacts.toLowerCase_app.
  rewrite !StrFacts.trim_padded by (by rewrite StrFacts.all_ws_toLowerCase).
  by rewrite (StrFacts.toLowerCase_same c1 c2 S).
Qed.


Section CacheLifetime.
Context {WeatherData : Type}.
Variable JSON_stringify : WeatherData -> string.
Variable JSON_parse : string -> option (nullable WeatherData).
Implicit Types (w : world WeatherData).

#[local] Abbreviation getCached := (getCached WeatherData JSON_parse).
#[local] Abbreviation setCached := (setCached WeatherData JSON_stringify).
#[local] Abbreviation getCurrent := (getCurrent WeatherData JSON_parse).
#[local] Abbreviation settle := (settle WeatherData JSON_stringify).

(** What a served read finds [d] seconds after a served write. *)
Lemma lookup_after_write key value ttl d w :
  healthy w -> 0 < ttl ->
  let w' := tick d (snd (setCached key value ttl w)) in
  healthy w' /\
  Redis.lookup (now w') (db w') key =
    if d <? ttl then Some (Entry (JSON_stringify value) (Some (now w + ttl)))
    else None.
Proof.
  intros Hh Httl w'. subst w'.
  destruct (setCached_write JSON_stringify key value ttl w Hh Httl)
    as (Hh' & Hn & Hd & _).
  split; [by apply healthy_tick|].
  unfold Redis.lookup, Redis.live. simpl. rewrite Hd, Hn, lookup_insert_eq. simpl.
  destruct (Z.ltb_spec d ttl), (Z.ltb_spec (now w + d) (now w + ttl)); done || lia.
Qed.

(** X1. Cache round trip.  Over a healthy connection, a value written
    with [setCached] under a positive TTL is what [getCached] returns for
    the same key at any time before the TTL has elapsed, whatever the key
    held before, provided the value survives [JSON.stringify] followed by
    [JSON.parse]. *)
Theorem setCached_getCached_round_trip (key : string) (value : WeatherData)
    (ttl d : Z) w :
  healthy w ->
  0 <= d < ttl ->
  is_empty (JSON_stringify value) = false ->
  JSON_parse (JSON_stringify value) = Some (Obj value) ->
  fst (getCached key (tick d (snd (setCached key value ttl w)))) = Return (Obj value).
Proof.
  intros Hh Hd Hne Hrt.
  destruct (lookup_after_write key value ttl d w Hh ltac:(lia)) as (Hh' & Hl).
  destruct (Z.ltb_spec d ttl); [|lia].
  eapply getCached_value; [by apply healthy_next|exact Hl|done..].
Qed.

(** X2. TTL expiry.  Over a healthy connection, once the TTL given to
    [setCached] has elapsed, [getCached] returns [null] for that key. *)
Theorem cached_entry_expires (key : string) (value : WeatherData) (ttl d : Z) w :
  healthy w ->
  0 < ttl <= d ->
  fst (getCached key (tick d (snd (setCached key value ttl w)))) = Return Null.
Proof.
  intros Hh Hd.
  destruct (lookup_after_write key value ttl d w Hh ltac:(lia)) as (Hh' & Hl).
  destruct (Z.ltb_spec d ttl); [lia|].
  apply getCached_absent; [by apply healthy_next | exact Hl].
Qed.

End CacheLifetime.

Lemma setCached_getCached_round_trip_witness :
  fst (getCached Demo.WeatherData Demo.JSON_parse "weather:paris"
         (tick 43199
            (snd (setCached Demo.WeatherData Demo.JSON_stringify
                    "weather:paris" Demo.paris 43200 (Demo.boot [] Healthy)))))
    = Return (Obj Demo.paris).
Proof.
  apply (setCached_getCached_round_trip Demo.JSON_stringify Demo.JSON_parse).
  - split; reflexivity.
  - lia.
  - reflexivity.
  - reflexivity.
Defined.

Lemma cached_entry_expires_witness :
  fst (getCached Demo.WeatherData Demo.JSON_parse "weather:paris"
         (tick 43200
            (snd (setCached Demo.WeatherData Demo.JSON_stringify
                    "weather:paris" Demo.paris 43200 (Demo.boot [] Healthy)))))
    = Return Null.
Proof.
  apply (cached_entry_expires Demo.JSON_stringify Demo.JSON_parse).
  - split; reflexivity.
  - lia.
Defined.

(** ** A miss followed by a hit *)


Section MissThenHit.
Context {WeatherData : Type}.
Variable JSON_stringify : WeatherData -> string.
Variable JSON_parse : string -> option (nullable WeatherData).
Implicit Types (w : world WeatherData).

#[local] Abbreviation getCached := (getCached WeatherData JSON_parse).
#[local] Abbreviation setCached := (setCached WeatherData JSON_stringify).
#[local] Abbreviation getCurrent := (getCurrent WeatherData JSON_parse).
#[local] Abbreviation settle := (settle WeatherData JSON_stringify).

(** The first request for a location, over a healthy connection, by a
    caller that is admitted: the world it leaves. *)
Lemma getCurrent_first_fetch forwardedFor location status body w :
  let key := getCacheKey location in
  let w1 := snd (checkRateLimit (identifierOf forwardedFor) w) in
  let w2 := snd (getCached key w1) in
  healthy w ->
  location <> EmptyString ->
  fst (checkRateLimit (identifierOf forwardedFor) w) = Return tt ->
  Redis.lookup (now w) (db w) key = None ->
  upstream w location = Response status body ->
  validateStatus status = true ->
  getCurrent forwardedFor location w =
    (Return (CurrentWeather body false),
     set_pending WeatherData
       (pending w ++ [SetCachedCall key body CACHE_TTL_SECONDS])
       (emit (HttpGet location) w2)).
Proof.
  intros key w1 w2 Hh Hloc Hadmit Hfresh Hup Hok.
  destruct (checkRateLimit_frame (identifierOf forwardedFor) w)
    as (Hn1 & Hu1 & Hp1 & _ & Hd1 & _).
  pose proof (checkRateLimit_healthy (identifierOf forwardedFor) w Hh) as Hh1.
  fold w1 in Hn1, Hu1, Hp1, Hd1, Hh1.
  assert (fst (getCached key w1) = Return Null) as Hmiss.
  { apply getCached_absent; [by apply healthy_next|].
    rewrite Hn1, <- Hfresh. apply RedisFacts.lookup_frame.
    apply Hd1, cache_key_not_rate_key. }
  destruct (getCached_frame JSON_parse key w1) as (_ & Hu2 & Hp2 & _).
  fold w2 in Hu2, Hp2.
  rewrite getCurrent_miss_eq; [|done|done|].
  - cbv zeta. fold key w1 w2. rewrite fetchWeather_cases.
    rewrite Hu2, Hu1, Hup, Hok. simpl. by rewrite Hp2, Hp1.
  - intros c. fold key w1. rewrite Hmiss. discriminate.
Qed.


End MissThenHit.


(** ** Explicit invalidation, when the delete is served *)

Lemma exec_DEL_db key t d : snd (Redis.exec (DEL key) t d) = delete key d.
Proof. unfold Redis.exec. by destruct (Redis.lookup t d key). Qed.

Section Invalidation.
Context {WeatherData : Type}.
Variable JSON_stringify : WeatherData -> string.
Variable JSON_parse : string -> option (nullable WeatherData).
Implicit Types (w : world WeatherData).

#[local] Abbreviation getCached := (getCached WeatherData JSON_parse).
#[local] Abbreviation getCurrent := (getCurrent WeatherData JSON_parse).

Lemma clearCache_eq location w :
  location <> EmptyString ->
  clearCache location w = (Return true, snd (delCached (getCacheKey location) w)).
Proof.
  intros H. unfold clearCache, input.
  destruct location as [|a location]; [done|].
  assert ((String.length (String a location) <? 1)%nat = false) as -> by reflexivity.
  unfold try_catch, bind. rewrite delCached_cases. cbv zeta.
  by destruct (next_fault w).
Qed.

Lemma delCached_healthy key w :
  healthy w -> healthy (snd (delCached key w)).
Proof.
  intros Hh. rewrite delCached_cases. cbv zeta. rewrite (healthy_next w Hh).
  simpl. by apply healthy_served, healthy_connect.
Qed.

(** What [delCached] does to the world. *)
Lemma delCached_frame key w :
  let w' := snd (delCached key w) in
  now w' = now w /\ upstream w' = upstream w /\ pending w' = pending w /\
  (next_fault w <> Refused -> db w' = delete key (db w)) /\
  (forall k, k <> key -> db w' !! k = db w !! k) /\
  exists evs, log w' = log w ++ RedisCmd (DEL key) :: evs /\
              Forall console_event evs.
Proof.
  intros w'. subst w'. rewrite delCached_cases. cbv zeta.
  destruct (getRedisClient_frame w) as (Hn & Hd & Hf & Hs & Hu & Hp & Hl).
  set (w0 := snd (getRedisClient w)) in *.
  assert (forall l, log w0 ++ l = log w ++ l) as Hlog by (by intros; rewrite Hl).
  destruct (next_fault w); simpl; rewrite ?exec_DEL_db, ?Hd, <- ?app_assoc;
    split_and!; try done;
    try (by intros k Hk; rewrite lookup_delete_ne);
    (eexists; split; [apply Hlog|]); unfold console_event; each_event.
Qed.

(** X4. [clearCache] rejects an empty location before any I/O.  On a
    non-empty location it sends one [DEL], for the normalized key of the
    location, and nothing else to Redis or upstream; whenever that [DEL]
    reaches the server the entry is gone afterwards; and no other key,
    cached location or rate-limit counter, is changed. *)
Theorem clearCache_deletes_only_its_key (location : string) w :
  let key := getCacheKey location in
  let w' := snd (clearCache location w) in
  (location = EmptyString -> clearCache location w = (Throw invalid_input, w)) /\
  (location <> EmptyString ->
   (next_fault w <> Refused -> db w' !! key = None) /\
   (forall k, k <> key -> db w' !! k = db w !! k) /\
   (forall identifier, db w' !! rateLimitKey identifier = db w !! rateLimitKey identifier) /\
   now w' = now w /\ pending w' = pending w /\
   exists evs, log w' = log w ++ RedisCmd (DEL key) :: evs /\
               Forall console_event evs).
Proof.
  intros key w'. split; [by intros ->|].
  intros Hloc. subst w'. rewrite clearCache_eq by done. simpl snd. fold key.
  destruct (delCached_frame key w) as (Hn & _ & Hp & Hdel & Hframe & Hlog).
  split; [|split; [|split]]; try done.
  - intros Hnf. rewrite (Hdel Hnf). apply lookup_delete_eq.
  - intros identifier. apply Hframe. intros E. symmetry in E.
    by apply cache_key_not_rate_key in E.
Qed.

(** X5. Invalidation forces a fresh fetch.  Over a healthy connection,
    after [clearCache] for a location (in any letter case, with any
    surrounding white space), the next admitted [getCurrent] for that
    location calls upstream once and answers with [fromCache = false],
    whatever was cached before, and queues the write of the new value. *)
Theorem invalidation_forces_refetch (forwardedFor : option string)
    (location location' : string) (status : Z) (body : WeatherData) w :
  let w1 := snd (clearCache location' w) in
  let r := getCurrent forwardedFor location w1 in
  healthy w ->
  location <> EmptyString ->
  location' <> EmptyString ->
  Str.same_location location location' ->
  fst (checkRateLimit (identifierOf forwardedFor) w1) = Return tt ->
  upstream w location = Response status body ->
  validateStatus status = true ->
  fst r = Return (CurrentWeather body false) /\
  pending (snd r) =
    pending w ++ [SetCachedCall (getCacheKey location) body CACHE_TTL_SECONDS] /\
  List.filter is_HttpGet (log (snd r)) =
    List.filter is_HttpGet (log w) ++ [HttpGet location].
Proof.
  intros w1 r Hh Hloc Hloc' Hsame Hadmit Hup Hok.
  assert (getCacheKey location' = getCacheKey location) as Ekey
    by (symmetry; by apply getCacheKey_same).
  subst r w1. rewrite clearCache_eq in Hadmit |- * by done.
  simpl snd in Hadmit |- *. rewrite Ekey in Hadmit |- *.
  set (key := getCacheKey location) in *.
  destruct (delCached_frame key w) as (Hn & Hu & Hp & Hdel & _ & evs & Hl & He).
  pose proof (delCached_healthy key w Hh) as Hh1.
  set (w1 := snd (delCached key w)) in *.
  assert (Redis.lookup (now w1) (db w1) key = None) as Hgone.
  { unfold Redis.lookup. rewrite Hdel, lookup_delete_eq; [done|].
    rewrite (healthy_next w Hh). discriminate. }
  rewrite (getCurrent_first_fetch JSON_parse forwardedFor location status body w1)
    by (try done; by rewrite Hu).
  fold key. simpl. split; [done|]. split; [by rewrite Hp|].
  rewrite List.filter_app. simpl.
  rewrite (no_fetch_before_lookup JSON_parse (identifierOf forwardedFor) key w1).
  rewrite Hl, List.filter_app. simpl.
  assert (List.filter is_HttpGet evs = []) as ->.
  { eapply no_HttpGet; [|exact He]. by intros ev [l ->]. }
  by rewrite app_nil_r.
Qed.

End Invalidation.

Lemma clearCache_deletes_only_its_key_witness :
  let w := Demo.running Demo.paris_cached_caller_spent [] Healthy in
  let w' := snd (clearCache " PARIS " w) in
  db w' !! "weather:paris" = None /\
  db w' !! "ratelimit:weather:10.0.0.1" = Some (Entry "100" (Some 3600)).
Proof.
  intros w w'.
  destruct (proj2 (clearCache_deletes_only_its_key " PARIS " w) ltac:(discriminate))
    as (Hgone & _ & Hrate & _).
  split.
  - apply Hgone. discriminate.
  - exact (Hrate "10.0.0.1").
Defined.

Lemma invalidation_forces_refetch_witness :
  let w := Demo.running Demo.paris_cached [] Healthy in
  let r := Demo.getCurrent None "Paris" (snd (clearCache "paris  " w)) in
  fst r = Return (CurrentWeather Demo.paris false) /\
  pending (snd r) = [SetCachedCall "weather:paris" Demo.paris 43200] /\
  List.filter is_HttpGet (log (snd r)) = [HttpGet "Paris"].
Proof.
  assert (Str.same_ignoring_case "Paris" "paris") as S by (repeat constructor).
  apply (invalidation_forces_refetch Demo.JSON_parse None "Paris" "paris  "
           200 Demo.paris (Demo.running Demo.paris_cached [] Healthy)).
  - split; reflexivity.
  - discriminate.
  - discriminate.
  - exact (Str.same_loc EmptyString "Paris" EmptyString EmptyString "paris" "  "
             eq_refl eq_refl eq_refl eq_refl S).
  - reflexivity.
  - reflexivity.
  - reflexivity.
Defined.

(** ** More on the rate limiter *)

Lemma string_app_inv_head (p a b : string) : p +:+ a = p +:+ b -> a = b.
Proof.
  induction p as [|c p IH]; intros H; [exact H|].
  change (String c (p +:+ a) = String c (p +:+ b)) in H.
  injection H as H. by apply IH.
Qed.

Lemma rateLimitKey_inj a b : rateLimitKey a = rateLimitKey b -> a = b.
Proof. apply string_app_inv_head. Qed.

Lemma filter_none (f : event -> bool) (P : event -> Prop) evs :
  (forall ev, P ev -> f ev = false) ->
  Forall P evs -> List.filter f evs = [].
Proof.
  intros HP. induction 1 as [|ev evs Hev _ IH]; simpl; [done|].
  by rewrite (HP ev Hev).
Qed.

Section Limiter.
Context {WeatherData : Type}.
Variable JSON_stringify : WeatherData -> string.
Variable JSON_parse : string -> option (nullable WeatherData).
Implicit Types (w : world WeatherData).

#[local] Abbreviation getCached := (getCached WeatherData JSON_parse).
#[local] Abbreviation getCurrent := (getCurrent WeatherData JSON_parse).

(** X6. The window restarts.  Over a healthy connection, when the
    caller's counter has reached its expiration time, whatever count it
    held, the next call is admitted and starts a new window: the counter is
    1 and expires one window from now. *)
Theorem window_restarts_after_expiry (identifier : string) w (e : entry) (x : Z) :
  healthy w ->
  db w !! rateLimitKey identifier = Some e ->
  e_exp e = Some x ->
  x <= now w ->
  fst (checkRateLimit identifier w) = Return tt /\
  counter_at (rateLimitKey identifier) 1 (Some (now w + window))
             (snd (checkRateLimit identifier w)).
Proof.
  intros Hh He Hx Hnow.
  assert (Redis.lookup (now w) (db w) (rateLimitKey identifier) = None) as Hgone.
  { unfold Redis.lookup, Redis.live. rewrite He, Hx.
    destruct (Z.ltb_spec (now w) x); [lia | done]. }
  destruct (checkRateLimit_first identifier w Hh Hgone) as (Hv & _ & _ & Hd & _).
  split; [done|]. unfold counter_at. rewrite Hd. apply lookup_insert_eq.
Qed.

(** X7. The rate limiter keeps to the caller's own counter.  Whatever
    the connection does, [checkRateLimit] changes neither the counter of
    any other identifier nor any cached location, queues nothing and does
    not move the clock; and distinct identifiers have distinct counters. *)
Theorem checkRateLimit_touches_only_own_counter (identifier : string) w :
  let w' := snd (checkRateLimit identifier w) in
  (forall other, rateLimitKey other = rateLimitKey identifier -> other = identifier) /\
  (forall other, other <> identifier ->
     db w' !! rateLimitKey other = db w !! rateLimitKey other) /\
  (forall location, db w' !! getCacheKey location = db w !! getCacheKey location) /\
  pending w' = pending w /\
  now w' = now w.
Proof.
  intros w'. subst w'.
  destruct (checkRateLimit_frame identifier w) as (Hn & _ & Hp & _ & Hd & _).
  split; [intros other; apply rateLimitKey_inj|].
  split; [|split; [|done]].
  - intros other Hne. apply Hd. intros E. by apply rateLimitKey_inj in E.
  - intros location. apply Hd, cache_key_not_rate_key.
Qed.

(** X8. A request over the limit stops at the rate limiter.  When
    [checkRateLimit] throws, [getCurrent] throws the same
    [TOO_MANY_REQUESTS] error (HTTP 429) without reading the cache or
    calling upstream: it has sent nothing but the counter's commands,
    queued nothing, and no cached location has changed. *)
Theorem rejected_request_stops_at_the_limiter (forwardedFor : option string)
    (location : string) w (e : exn) :
  let key := rateLimitKey (identifierOf forwardedFor) in
  let r := getCurrent forwardedFor location w in
  location <> EmptyString ->
  fst (checkRateLimit (identifierOf forwardedFor) w) = Throw e ->
  fst r = Throw rate_limit_exceeded /\
  (httpStatus <$> code_of rate_limit_exceeded) = Some 429 /\
  pending (snd r) = pending w /\
  (forall location', db (snd r) !! getCacheKey location' = db w !! getCacheKey location') /\
  exists evs, log (snd r) = log w ++ evs /\ Forall (limiter_event key) evs.
Proof.
  intros key r Hloc Hthrow. subst r.
  destruct (checkRateLimit_throws _ _ _ Hthrow) as (-> & _).
  destruct (checkRateLimit_frame (identifierOf forwardedFor) w)
    as (_ & _ & Hp & _ & Hd & Hlog).
  rewrite getCurrent_unfold by done. cbv zeta.
  destruct (checkRateLimit (identifierOf forwardedFor) w) as [o w1].
  simpl in Hthrow, Hp, Hd, Hlog |- *. subst o. simpl.
  split; [done|]. split; [done|]. split; [done|].
  split; [|exact Hlog].
  intros location'. apply Hd, cache_key_not_rate_key.
Qed.

(** What [getCurrent] can throw. *)
Lemma getCurrent_throws forwardedFor location w e :
  fst (getCurrent forwardedFor location w) = Throw e ->
  (location = EmptyString /\ e = invalid_input) \/
  (location <> EmptyString /\
   (e = rate_limit_exceeded \/ e = invalid_location \/ e = authentication_failed \/
    exists status, e = request_failed (AxiosError status))).
Proof.
  destruct location as [|a location]; [intros [= <-]; by left|].
  intros H. right. split; [done|].
  rewrite getCurrent_unfold in H by done. cbv zeta in H.
  pose proof (checkRateLimit_throws (identifierOf forwardedFor) w) as Hrl.
  destruct (checkRateLimit (identifierOf forwardedFor) w) as [[[]|e1] w1].
  2: { simpl in H. injection H as ->. left. by destruct (Hrl e eq_refl). }
  destruct (getCached_returns JSON_parse (getCacheKey (String a location)) w1) as [v Hv].
  destruct (getCached (getCacheKey (String a location)) w1) as [o w2].
  simpl in Hv. subst o.
  assert (forall o3 w3,
            fetchWeather (String a location) w2 = (o3, w3) ->
            o3 = Throw e ->
            e = invalid_location \/ e = authentication_failed \/
            exists status, e = request_failed (AxiosError status)) as Hfetch.
  { intros o3 w3 Hf ->. rewrite fetchWeather_cases in Hf.
    destruct (upstream w2 (String a location)) as [status body| |];
      [destruct (validateStatus status);
         [done|destruct (status =? 400); [|destruct (status =? 401)]]| |];
      injection Hf as <- _; eauto. }
  destruct (fetchWeather (String a location) w2) as [[d|e3] w3] eqn:Ef.
  - by destruct v.
  - assert (e3 = e) as ->.
    { destruct v as [| |c]; simpl in H; [by injection H..|discriminate]. }
    right. by apply (Hfetch (Throw e) w3).
Qed.


(** X12. White space passes validation.  A location made of white space
    only is not empty, so the input schema accepts it: [getCurrent] never
    answers it with the input error; and every such location has the same
    cache key, the bare prefix. *)
Theorem blank_location_is_accepted (forwardedFor : option string)
    (location : string) w :
  Str.all_ws location = true ->
  location <> EmptyString ->
  getCacheKey location = "weather:" /\
  fst (getCurrent forwardedFor location w) <> Throw invalid_input.
Proof.
  intros Hws Hloc. split.
  - unfold getCacheKey, Str.trim.
    rewrite StrFacts.trimStart_all_ws by (by rewrite StrFacts.all_ws_toLowerCase).
    done.
  - intros H. by destruct (getCurrent_throws _ _ _ _ H) as [[? _]|[_ [?|[?|[?|[s ?]]]]]].
Qed.

End Limiter.

Lemma window_restarts_after_expiry_witness :
  let w := tick 3600 (Demo.running Demo.paris_cached_caller_spent [] Healthy) in
  fst (checkRateLimit "10.0.0.1" w) = Return tt /\
  counter_at "ratelimit:weather:10.0.0.1" 1 (Some 7200)
             (snd (checkRateLimit "10.0.0.1" w)).
Proof.
  intros w.
  apply (window_restarts_after_expiry "10.0.0.1" w (Entry "100" (Some 3600)) 3600).
  - split; reflexivity.
  - reflexivity.
  - reflexivity.
  - simpl. lia.
Defined.

Lemma rejected_request_stops_at_the_limiter_witness :
  let w := Demo.running Demo.paris_cached_caller_spent [] Healthy in
  let r := Demo.getCurrent (Some "10.0.0.1") "Paris" w in
  fst r = Throw rate_limit_exceeded /\
  pending (snd r) = [] /\
  db (snd r) !! getCacheKey "Paris" = Some (Entry Demo.paris (Some 43200)).
Proof.
  intros w r.
  destruct (rejected_request_stops_at_the_limiter Demo.JSON_parse
              (Some "10.0.0.1") "Paris" w rate_limit_exceeded
              ltac:(discriminate) eq_refl) as (Hr & _ & Hp & Hd & _).
  split; [exact Hr|]. split; [exact Hp|]. exact (Hd "Paris").
Defined.


Lemma blank_location_is_accepted_witness :
  getCacheKey "  " = "weather:" /\
  fst (Demo.getCurrent None "  " (Demo.boot [] Healthy)) <> Throw invalid_input.
Proof.
  apply (blank_location_is_accepted Demo.JSON_parse None "  " (Demo.boot [] Healthy)).
  - reflexivity.
  - discriminate.
Defined.

(** ** Failed fetches, writes and quota *)

Lemma checkRateLimit_log {WeatherData} identifier (w : world WeatherData) :
  let key := rateLimitKey identifier in
  exists evs,
    log (snd (checkRateLimit identifier w)) = log w ++ RedisCmd (INCR key) :: evs /\
    Forall (fun ev => ev = RedisCmd (EXPIRE key window) \/ console_event ev) evs.
Proof.
  intros key. rewrite checkRateLimit_cases. fold key. cbv zeta.
  destruct (getRedisClient_frame w) as (_ & _ & _ & _ & _ & _ & Hl).
  set (w0 := snd (getRedisClient w)) in *.
  assert (forall l, log w0 ++ l = log w ++ l) as Hlog by (by intros; rewrite Hl).
  destruct (next_fault w);
    [destruct (fst (Redis.exec (INCR key) (now w) (db w))) as [| |n| |m];
       [| |destruct (n =? 1); [destruct (next_fault (served (INCR key) w0))|]| |]| |];
    simpl; rewrite <- ?app_assoc;
    (eexists; split; [apply Hlog|]); unfold console_event; each_event.
Qed.

Section Requests.
Context {WeatherData : Type}.
Variable JSON_stringify : WeatherData -> string.
Variable JSON_parse : string -> option (nullable WeatherData).
Implicit Types (w : world WeatherData).

#[local] Abbreviation getCached := (getCached WeatherData JSON_parse).
#[local] Abbreviation setCached := (setCached WeatherData JSON_stringify).
#[local] Abbreviation getCurrent := (getCurrent WeatherData JSON_parse).

(** X9. A failed fetch is not cached.  For an admitted request whose
    cache read returns no value, when upstream does not answer with a 2xx
    status, [getCurrent] throws one of the three errors of [fetchWeather]
    after one upstream call, queues no write and leaves the keyspace as the
    rate limiter left it: the next request will call upstream again. *)
Theorem failed_fetch_is_not_cached (forwardedFor : option string)
    (location : string) w :
  let key := getCacheKey location in
  let w1 := snd (checkRateLimit (identifierOf forwardedFor) w) in
  let r := getCurrent forwardedFor location w in
  location <> EmptyString ->
  fst (checkRateLimit (identifierOf forwardedFor) w) = Return tt ->
  (forall c, fst (getCached key w1) <> Return (Obj c)) ->
  (forall status body,
     upstream w location = Response status body -> validateStatus status = false) ->
  (exists e, fst r = Throw e /\
             (e = invalid_location \/ e = authentication_failed \/
              exists status, e = request_failed (AxiosError status))) /\
  pending (snd r) = pending w /\
  db (snd r) = db w1 /\
  List.filter is_HttpGet (log (snd r)) =
    List.filter is_HttpGet (log w) ++ [HttpGet location].
Proof.
  intros key w1 r Hloc Hadmit Hmiss Hfail. subst r.
  destruct (checkRateLimit_frame (identifierOf forwardedFor) w)
    as (_ & Hu1 & Hp1 & _).
  destruct (getCached_frame JSON_parse key w1) as (_ & Hu2 & Hp2 & _ & Hd2 & _).
  pose proof (no_fetch_before_lookup JSON_parse (identifierOf forwardedFor) key w)
    as Hlog.
  cbv zeta in Hlog. fold w1 in Hu1, Hp1, Hlog.
  rewrite getCurrent_miss_eq by done. cbv zeta. fold key w1.
  set (w2 := snd (getCached key w1)) in *.
  rewrite fetchWeather_cases, Hu2, Hu1.
  destruct (upstream w location) as [status body| |] eqn:Hup.
  - rewrite (Hfail status body eq_refl).
    destruct (status =? 400); [|destruct (status =? 401)]; simpl;
      (split; [eexists; split; [done|eauto]|]);
      (split; [congruence|]); (split; [done|]);
      by rewrite List.filter_app, Hlog.
  - simpl. split; [eexists; split; [done|eauto]|].
    split; [congruence|]. split; [done|]. by rewrite List.filter_app, Hlog.
  - simpl. split; [eexists; split; [done|eauto]|].
    split; [congruence|]. split; [done|]. by rewrite List.filter_app, Hlog.
Qed.

(** X13. [setCached] writes its own key only.  Whatever the connection
    does, [setCached] sends one [SETEX] for its key, changes no other key,
    queues nothing and does not move the clock; and with a TTL that is not
    positive it changes nothing at all: Redis refuses the command and the
    error is only logged. *)
Theorem setCached_writes_only_its_key (key : string) (value : WeatherData)
    (ttl : Z) w :
  let w' := snd (setCached key value ttl w) in
  (forall k, k <> key -> db w' !! k = db w !! k) /\
  (ttl <= 0 -> db w' = db w) /\
  now w' = now w /\
  pending w' = pending w /\
  exists evs,
    log w' = log w ++ RedisCmd (SETEX key ttl (JSON_stringify value)) :: evs /\
    Forall console_event evs.
Proof.
  intros w'. subst w'. rewrite setCached_cases. cbv zeta.
  destruct (getRedisClient_frame w) as (Hn & Hd & _ & _ & _ & Hp & Hl).
  set (w0 := snd (getRedisClient w)) in *.
  set (c := SETEX key ttl (JSON_stringify value)).
  assert (forall l, log w0 ++ l = log w ++ l) as Hlog by (by intros; rewrite Hl).
  assert (forall k, k <> key -> snd (Redis.exec c (now w0) (db w0)) !! k = db w !! k)
    as Hframe.
  { intros k Hk. rewrite RedisFacts.exec_frame by done. by rewrite Hd. }
  assert (ttl <= 0 -> snd (Redis.exec c (now w0) (db w0)) = db w) as Hrefused.
  { intros Httl. unfold c, Redis.exec.
    destruct (Z.leb_spec ttl 0); [done | lia]. }
  destruct (next_fault w); [destruct (ttl <=? 0)| |];
    simpl; rewrite <- ?app_assoc; split_and!; try done;
    try (by intros; rewrite Hd);
    (eexists; split; [apply Hlog|]); unfold console_event; each_event.
Qed.

(** X14. Every valid request is counted once.  Whatever the connection
    does and however the request ends (answered from the cache, answered
    from upstream, rejected, failed), [getCurrent] on a non-empty location
    sends exactly one [INCR], for the caller's counter, and sends it
    first. *)
Theorem every_valid_request_is_counted (forwardedFor : option string)
    (location : string) w :
  let key := rateLimitKey (identifierOf forwardedFor) in
  location <> EmptyString ->
  exists evs,
    log (snd (getCurrent forwardedFor location w)) =
      log w ++ RedisCmd (INCR key) :: evs /\
    List.filter is_INCR evs = [].
Proof.
  intros key Hloc.
  rewrite getCurrent_unfold by done. cbv zeta.
  destruct (checkRateLimit_log (identifierOf forwardedFor) w) as (evs1 & Hl1 & He1).
  fold key in Hl1, He1.
  assert (List.filter is_INCR evs1 = []) as Hn1.
  { eapply filter_none; [|exact He1]. by intros ev [->|[l ->]]. }
  destruct (checkRateLimit (identifierOf forwardedFor) w) as [[[]|e1] w1];
    simpl in Hl1; [|by exists evs1].
  destruct (getCached_frame JSON_parse (getCacheKey location) w1)
    as (_ & _ & _ & _ & _ & evs2 & Hl2 & He2).
  assert (List.filter is_INCR evs2 = []) as Hn2.
  { eapply filter_none; [|exact He2]. by intros ev [l ->]. }
  destruct (getCached_returns JSON_parse (getCacheKey location) w1) as [v Hv].
  destruct (getCached (getCacheKey location) w1) as [o w2].
  simpl in Hl2, Hv. subst o.
  assert (log w2 = log w ++ RedisCmd (INCR key)
                     :: (evs1 ++ RedisCmd (GET (getCacheKey location)) :: evs2)) as Hl.
  { rewrite Hl2, Hl1, <- app_assoc. done. }
  assert (List.filter is_INCR (evs1 ++ RedisCmd (GET (getCacheKey location)) :: evs2) = [])
    as Hn by (rewrite List.filter_app, Hn1; simpl; exact Hn2).
  rewrite fetchWeather_cases.
  destruct v as [| |c]; [| |by eexists];
    (exists ((evs1 ++ RedisCmd (GET (getCacheKey location)) :: evs2)
             ++ [HttpGet location]);
     split; [|by rewrite List.filter_app, Hn]);
    destruct (match upstream w2 location with
              | Response status body =>
                  if validateStatus status then Return body
                  else if status =? 400 then Throw invalid_location
                  else if status =? 401 then Throw authentication_failed
                  else Throw (request_failed (AxiosError (Some status)))
              | _ => Throw (request_failed (AxiosError None))
              end); simpl; by rewrite Hl, <- app_assoc.
Qed.

End Requests.

Lemma failed_fetch_is_not_cached_witness :
  let w := Demo.boot [] Healthy in
  let r := Demo.getCurrent None "Atlantis" w in
  pending (snd r) = [] /\
  db (snd r) = db (snd (checkRateLimit "default" w)) /\
  List.filter is_HttpGet (log (snd r)) = [HttpGet "Atlantis"].
Proof.
  intros w r.
  destruct (failed_fetch_is_not_cached Demo.JSON_parse None "Atlantis" w)
    as (_ & Hp & Hd & Hl).
  - discriminate.
  - reflexivity.
  - intros c. discriminate.
  - intros status body [= <- <-]. reflexivity.
  - split; [exact Hp|]. split; [exact Hd | exact Hl].
Defined.

Lemma every_valid_request_is_counted_witness :
  exists evs,
    log (snd (Demo.getCurrent None "Paris" (Demo.boot [Refused] Healthy))) =
      RedisCmd (INCR "ratelimit:weather:default") :: evs /\
    List.filter is_INCR evs = [].
Proof.
  apply (every_valid_request_is_counted Demo.JSON_parse None "Paris"
           (Demo.boot [Refused] Healthy)).
  discriminate.
Defined.

(** ** Cache keys do not collide *)





(** ** A cached location grows stale *)

Section Staleness.
Context {WeatherData : Type}.
Variable JSON_stringify : WeatherData -> string.
Variable JSON_parse : string -> option (nullable WeatherData).
Implicit Types (w : world WeatherData).

#[local] Abbreviation getCached := (getCached WeatherData JSON_parse).
#[local] Abbreviation setCached := (setCached WeatherData JSON_stringify).
#[local] Abbreviation getCurrent := (getCurrent WeatherData JSON_parse).
#[local] Abbreviation settle := (settle WeatherData JSON_stringify).



End Staleness.

